(** * video2ascii: the frame-to-ASCII conversion pipeline of [src/main.cpp]

    A shallow embedding of the glyph mapper ([pixel_to_ascii]), the colour
    encoder ([apply_color_to_ascii]), the frame converter
    ([convert_frame_to_ascii]), the progress bar ([display_progress]) and the
    preload branch of [main] that splits the frames over worker threads
    ([process_frames] and the dispatch loop, called [convert_batch] here);
    further the command line ([parse_arguments]), the playback
    ([display_ascii_video]) and the two modes of [main] around them.

    Numeric model.
    - [double] is IEEE binary64, embedded bit for bit by Rocq's primitive
      floats; the glyph mapper, the colour encoder and the text height
      compute with it.
    - [float] is IEEE binary32, embedded bit for bit by the operations of
      [SpecFloat] at precision 24 and maximal exponent 128, rounding to
      nearest even; the progress bar and the playback pause compute with
      it.  What is proved about the order of the reports is stated on the
      exact rational value of a binary32 number ([f32_value]).
    - [int] and [size_t] are unbounded ([Z], [nat]); no index or counter of
      the pipeline overflows for a batch whose size fits an [int].  The one
      product that can overflow, in the text height, is checked against
      the range of [int].

    Threads.  The worker threads share [ascii_frames], [completed_frames],
    [last_progress] and [std::cout].  For the converted frames and the
    counter their interleavings are the schedules of the relation [step],
    one loop iteration of one thread at a time; the run that takes the
    tasks one after the other ([run_in_order]) is one of them.  For the
    progress bar an iteration is split where another thread can come in
    between ([move_worker]): counting the frame, then loading the counter
    and calling [display_progress]. *)

From Stdlib Require Import ZArith QArith Qround Qpower Lqa Floats Ascii String DecimalString.
From Stdlib Require Import Sorted Lia.
From stdpp Require Import base list.

Open Scope string_scope.

(* ===================================================================== *)
(** * Outcomes of code that may leave defined behaviour *)
(* ===================================================================== *)

Inductive result (A : Type) : Type :=
| Ok (a : A)
| DivisionByZero        (* integer division by zero *)
| OutOfRange.           (* [operator[]] of a vector past its size, or a
                           result outside the range of [int] *)
Arguments Ok {A} a.
Arguments DivisionByZero {A}.
Arguments OutOfRange {A}.

Definition result_bind {A B} (f : A -> result B) (m : result A) : result B :=
  match m with
  | Ok a => f a
  | DivisionByZero => DivisionByZero
  | OutOfRange => OutOfRange
  end.

#[global] Instance result_mbind : MBind result := @result_bind.
#[global] Instance result_mret : MRet result := @Ok.

(** [for (int i = lo; i < hi; ++i) body], threading the state the body
    mutates. *)
Fixpoint for_loop {St : Type} (n i : nat) (body : nat -> St -> St) (s : St) : St :=
  match n with
  | O => s
  | S n' => for_loop n' (S i) body (body i s)
  end.

Definition for_range {St : Type} (lo hi : nat) (body : nat -> St -> St) (s : St) : St :=
  for_loop (hi - lo) lo body s.

(* ===================================================================== *)
(** * C++ conversions *)
(* ===================================================================== *)

(** [static_cast<int>(x)] for a [double] or [float]: the fraction is dropped
    (truncation toward zero).  NaN, the infinities and a value outside the
    range of [int] are undefined behaviour in C++; NaN and the infinities
    are given 0 here, and [fits_int] tells where the conversion is
    defined. *)
Definition trunc_spec (x : spec_float) : Z :=
  match x with
  | S754_finite s m e =>
      let a := if (0 <=? e)%Z then (Z.pos m * 2 ^ e)%Z else (Z.pos m / 2 ^ (- e))%Z in
      if s then (- a)%Z else a
  | _ => 0%Z
  end.

Definition INT_MAX : Z := 2147483647.
Definition INT_MIN : Z := -2147483648.

Definition fits_int (x : spec_float) : bool :=
  match x with
  | S754_zero _ => true
  | S754_finite _ _ _ => ((INT_MIN <=? trunc_spec x) && (trunc_spec x <=? INT_MAX))%Z
  | _ => false
  end.

Definition static_cast_int (x : float) : Z := trunc_spec (Prim2SF x).

(** Implicit conversion of an integer operand to [double]. *)
Definition double_of_int (z : Z) : float :=
  if (z <? 0)%Z then (- PrimFloat.of_uint63 (Uint63.of_Z (- z)))%float
  else PrimFloat.of_uint63 (Uint63.of_Z z).

(** [std::to_string(int)]: decimal digits, a leading [-] when negative. *)
Definition to_string (z : Z) : string := NilZero.string_of_int (Z.to_int z).

(** [s[pos]] of a [std::string]: the character at [pos], the terminating NUL
    at [pos = size]; further out the behaviour is undefined, modelled by NUL
    as well. *)
Definition string_at (s : string) (pos : Z) : ascii :=
  if (pos <? 0)%Z then Ascii.zero
  else match String.get (Z.to_nat pos) s with
       | Some c => c
       | None => Ascii.zero
       end.

(* ===================================================================== *)
(** * Glyph mapper and colour encoder *)
(* ===================================================================== *)

Definition ASCII_CHARS : string := ".-:=+*%#@$".

(** The index expression of [pixel_to_ascii]. *)
Definition glyph_index (pixel : float) : Z :=
  static_cast_int
    (pixel * double_of_int (Z.of_nat (String.length ASCII_CHARS)) / double_of_int 256)%float.

Definition pixel_to_ascii (pixel : float) : ascii :=
  string_at ASCII_CHARS (glyph_index pixel).

(** [cv::Vec3b]: three [uchar] components, read by index. *)
Record Vec3b : Type := mkVec3b { val0 : Byte.byte; val1 : Byte.byte; val2 : Byte.byte }.

Definition vec_at (v : Vec3b) (k : nat) : Byte.byte :=
  match k with
  | O => val0 v
  | 1%nat => val1 v
  | _ => val2 v
  end.

(** Integral promotion of a [uchar] to [int]. *)
Definition int_of_uchar (c : Byte.byte) : Z := Z.of_N (Byte.to_N c).

Definition ESC : ascii := "027"%char.

Definition apply_color_to_ascii (pixel : Vec3b) : string :=
  let r := int_of_uchar (vec_at pixel 2) in
  let g := int_of_uchar (vec_at pixel 1) in
  let b := int_of_uchar (vec_at pixel 0) in
  (String ESC "[38;2;" ++ to_string r ++ ";" ++ to_string g ++ ";" ++ to_string b ++ "m")
    ++ String (pixel_to_ascii (double_of_int (r + g + b) / 3)%float) "".

(** The glyph mapper in the words of the specification: the index is
    [floor (brightness * K / 256)] over the reals, clamped to [K - 1]. *)
Definition K : Z := 10.

Definition spec_glyph_index (brightness : Q) : Z :=
  Qfloor (brightness * inject_Z K / 256).

Definition spec_glyph (brightness : Q) : ascii :=
  string_at ASCII_CHARS (Z.min (spec_glyph_index brightness) (K - 1)).

(** The wire format of the escape: [ESC[38;2;{r};{g};{b}m]. *)
Definition true_color_escape (r g b : Z) : string :=
  String ESC "[38;2;" ++ to_string r ++ ";" ++ to_string g ++ ";" ++ to_string b ++ "m".

(** The unweighted mean of three channels, as a real number. *)
Definition mean3 (r g b : Z) : Q := inject_Z (r + g + b) / 3.

(** The mean as integer division would give it; the code does not use it. *)
Definition truncated_mean_index (r g b : Z) : Z :=
  spec_glyph_index (inject_Z ((r + g + b) / 3)).

(** One of the characters of the ramp. *)
Definition ramp_char (c : ascii) : Prop :=
  exists i : nat, (i < Z.to_nat K)%nat /\ String.get i ASCII_CHARS = Some c.

(** A decimal numeral without sign, padding or leading zero, and its value. *)
Definition is_digit (c : ascii) : bool :=
  ((48 <=? nat_of_ascii c) && (nat_of_ascii c <=? 57))%nat.

Fixpoint all_digits (s : string) : bool :=
  match s with
  | EmptyString => true
  | String c s' => is_digit c && all_digits s'
  end.

Fixpoint digits_value (acc : Z) (s : string) : Z :=
  match s with
  | EmptyString => acc
  | String c s' => digits_value (10 * acc + (Z.of_nat (nat_of_ascii c) - 48)) s'
  end.

Definition plain_decimal (z : Z) (s : string) : bool :=
  match s with
  | EmptyString => false
  | String c s' =>
      all_digits s && (negb (Ascii.eqb c "0") || String.eqb s' "")
      && (digits_value 0 s =? z)%Z
  end.

(** Checking a property of integers on [0 .. hi - 1] by evaluation. *)
Definition Z_range_forall (hi : nat) (P : Z -> bool) : bool :=
  forallb (fun n => P (Z.of_nat n)) (seq 0 hi).

(* ===================================================================== *)
(** * Frame converter *)
(* ===================================================================== *)

(** [cv::Mat] of [Vec3b]: its dimensions and [frame.at<cv::Vec3b>(i, j)]. *)
Record Mat : Type := mkMat { rows : nat; cols : nat; at_ : nat -> nat -> Vec3b }.

Definition newline : ascii := "010"%char.

(** The [std::ostringstream] is the string written so far. *)
Definition convert_frame_to_ascii (frame : Mat) : string :=
  for_range 0 (rows frame)
    (fun i ascii_frame =>
       for_range 0 (cols frame)
         (fun j ascii_frame => ascii_frame ++ apply_color_to_ascii (at_ frame i j))
         ascii_frame
       ++ String newline "")
    "".

Definition concat_strings (l : list string) : string := foldr String.append "" l.

(** The glyph units of one row, left to right, and the row as text. *)
Definition row_units (frame : Mat) (i : nat) : list string :=
  map (fun j => apply_color_to_ascii (at_ frame i j)) (seq 0 (cols frame)).

Definition row_text (frame : Mat) (i : nat) : string :=
  concat_strings (row_units frame i).

Definition black : Vec3b := mkVec3b Byte.x00 Byte.x00 Byte.x00.

Fixpoint lines_from (cur : string) (s : string) : list string :=
  match s with
  | EmptyString => []
  | String c s' =>
      if Ascii.eqb c newline then cur :: lines_from "" s'
      else lines_from (cur ++ String c "") s'
  end.

(** The newline-terminated lines of a text. *)
Definition lines (s : string) : list string := lines_from "" s.

Fixpoint count_char (c : ascii) (s : string) : nat :=
  match s with
  | EmptyString => O
  | String d s' => (if Ascii.eqb c d then 1 else 0) + count_char c s'
  end.

Fixpoint repeat_string (n : nat) (s : string) : string :=
  match n with
  | O => ""
  | S n' => s ++ repeat_string n' s
  end.

(* ===================================================================== *)
(** * Binary32 *)
(* ===================================================================== *)

Definition f32_prec : Z := 24.
Definition f32_emax : Z := 128.

(** Conversion of an [int] to [float], and the operations on [float]. *)
Definition f32_of_int (z : Z) : spec_float := binary_normalize f32_prec f32_emax z 0 false.
Definition f32_div : spec_float -> spec_float -> spec_float := SFdiv f32_prec f32_emax.
Definition f32_sub : spec_float -> spec_float -> spec_float := SFsub f32_prec f32_emax.
Definition f32_mul : spec_float -> spec_float -> spec_float := SFmul f32_prec f32_emax.

(** The literal [0.05f]: the binary32 number nearest to 5 / 100, which is
    13421773 / 2^28, a little above 0.05. *)
Definition f32_threshold : spec_float := f32_div (f32_of_int 5) (f32_of_int 100).

(** [0.05f] less half a unit in its last place, 13421772.5 / 2^28: an
    exact difference below it rounds to less than [0.05f]. *)
Definition f32_gap : Q := 26843545 # 536870912.

Definition is_nan (x : spec_float) : bool :=
  match x with
  | S754_nan => true
  | _ => false
  end.

(** The rational number a finite binary32 number stands for. *)
Definition f32_value (x : spec_float) : Q :=
  match x with
  | S754_finite s m e => inject_Z (cond_Zopp s (Z.pos m)) * 2 ^ e
  | _ => 0
  end.

(** The infinities lie below and above all numbers. *)
Definition f32_rank (x : spec_float) : Z :=
  match x with
  | S754_infinity true => -1
  | S754_infinity false => 1
  | _ => 0
  end.

(** The order of the numbers of binary32; NaN is not compared. *)
Definition f32_le (x y : spec_float) : Prop :=
  is_nan x = false /\ is_nan y = false /\
  ((f32_rank x < f32_rank y)%Z
   \/ (f32_rank x = f32_rank y /\ (f32_value x <= f32_value y)%Q)).

Definition f32_lt (x y : spec_float) : Prop :=
  is_nan x = false /\ is_nan y = false /\
  ((f32_rank x < f32_rank y)%Z
   \/ (f32_rank x = f32_rank y /\ (f32_value x < f32_value y)%Q)).

(** What rounding returns: a zero, a finite number or an infinity of the
    sign asked for. *)
Inductive rounded (s : bool) : spec_float -> Prop :=
| rounded_zero : rounded s (S754_zero s)
| rounded_finite (m : positive) (e : Z) : rounded s (S754_finite s m e)
| rounded_infinity : rounded s (S754_infinity s).

(* ===================================================================== *)
(** * Progress bar *)
(* ===================================================================== *)

(** The state shared by the worker threads. [cout] holds the progress
    reports written so far, oldest first, each by the [float] it shows;
    [progress_bar] gives the text of a report. *)
Record State : Type := mkState {
  ascii_frames : list string;     (* std::vector<std::string> ascii_frames *)
  completed_frames : nat;         (* std::atomic<int> completed_frames *)
  last_progress : spec_float;     (* static float last_progress *)
  cout : list spec_float
}.

Definition bar_width : Z := 50.

(** The percentage a report shows: [static_cast<int>(progress * 100)]. *)
Definition percent32 (progress : spec_float) : Z :=
  trunc_spec (f32_mul progress (f32_of_int 100)).

(** The position of the arrow: [static_cast<int>(bar_width * progress)]. *)
Definition bar_position (progress : spec_float) : Z :=
  trunc_spec (f32_mul (f32_of_int bar_width) progress).

(** The text written under the lock.  The two conversions to [int] are
    defined when the products fit an [int] ([fits_int]). *)
Definition progress_bar (progress : spec_float) : string :=
  let pos := bar_position progress in
  ("[" ++ for_range 0 (Z.to_nat bar_width)
            (fun i bar => bar ++ (if (Z.of_nat i <? pos)%Z then "="
                                  else if (Z.of_nat i =? pos)%Z then ">" else " "))
            ""
       ++ "] " ++ to_string (percent32 progress) ++ String " " (String "%" (String "013"%char ""))).

(** The assignment [last_progress = progress]; like the guard before it, it
    runs before [progress_mutex] is taken. *)
Definition set_last_progress (progress : spec_float) (s : State) : State :=
  {| ascii_frames := ascii_frames s;
     completed_frames := completed_frames s;
     last_progress := progress;
     cout := cout s |}.

(** The rest of the body, under the lock: the bar is written. *)
Definition write_bar (progress : spec_float) (s : State) : State :=
  {| ascii_frames := ascii_frames s;
     completed_frames := completed_frames s;
     last_progress := last_progress s;
     cout := (cout s ++ [progress])%list |}.

(** A call that runs from its guard to its last write without another call
    in between.  The guard [progress - last_progress < 0.05f] is computed in
    binary32; a comparison with NaN is false. *)
Definition display_progress (progress : spec_float) (s : State) : State :=
  if SFltb (f32_sub progress (last_progress s)) f32_threshold then s
  else write_bar progress (set_last_progress progress s).

(** [static_cast<float>(completed_frames) / total_frames]: both integers
    are converted to [float], the division is that of binary32. *)
Definition fraction (completed total_frames : Z) : spec_float :=
  f32_div (f32_of_int completed) (f32_of_int total_frames).

(* ===================================================================== *)
(** * Worker threads and the dispatch loop *)
(* ===================================================================== *)

(** The first two statements of the loop body of [process_frames]: the
    slot is written and the frame counted. *)
Definition count_frame (frames : list Mat) (i : nat) (s : State) : result State :=
  match frames !! i with
  | None => OutOfRange
  | Some frame =>
      if decide (i < length (ascii_frames s))%nat then
        Ok {| ascii_frames := <[i := convert_frame_to_ascii frame]> (ascii_frames s);
              completed_frames := S (completed_frames s);
              last_progress := last_progress s;
              cout := cout s |}
      else OutOfRange
  end.

(** The third statement: the counter is loaded and [display_progress]
    called with the fraction. *)
Definition show_progress (total_frames : Z) (s : State) : State :=
  display_progress (fraction (Z.of_nat (completed_frames s)) total_frames) s.

(** One iteration of the loop of [process_frames], with no other thread
    between its statements. *)
Definition process_frame (frames : list Mat) (total_frames : Z) (i : nat) (s : State)
  : result State :=
  count_frame frames i s ≫= fun s1 => Ok (show_progress total_frames s1).

Definition process_frames (start end_ : nat) (frames : list Mat) (total_frames : Z)
  (s : State) : result State :=
  for_range start end_ (fun i r => r ≫= process_frame frames total_frames i) (Ok s).

(** The arguments [start] and [end] of one [std::async] task. *)
Record Task : Type := mkTask { t_start : nat; t_end : nat }.

(** [frames.size() / num_threads]. *)
Definition frames_per_thread (n num_threads : nat) : result nat :=
  if (num_threads =? 0)%nat then DivisionByZero else Ok (n / num_threads)%nat.

(** The loop of [main] that fills [futures]: one task per thread. *)
Definition spawn (n num_threads : nat) : result (list Task) :=
  frames_per_thread n num_threads ≫= fun fpt =>
  Ok (for_range 0 num_threads
        (fun i futures =>
           (futures ++ [ {| t_start := i * fpt;
                            t_end := if (i =? num_threads - 1)%nat then n
                                     else (i + 1) * fpt |} ])%list)
        []).

(** The frame indices a task converts, in the order of its loop. *)
Definition task_indices (t : Task) : list nat :=
  for_range (t_start t) (t_end t) (fun i acc => (acc ++ [i])%list) [].

Definition initial_state (n : nat) : State :=
  {| ascii_frames := replicate n "";
     completed_frames := 0;
     last_progress := f32_of_int (-1);
     cout := [] |}.

(** Running the tasks one after the other, in the order they were spawned:
    one of the schedules of the threads. *)
Definition run_in_order (tasks : list Task) (frames : list Mat) (total_frames : Z)
  (s : State) : result State :=
  fold_left (fun r t => r ≫= process_frames (t_start t) (t_end t) frames total_frames)
            tasks (Ok s).

Definition run_batch (num_threads : nat) (total_frames : Z) (frames : list Mat)
  : result State :=
  spawn (length frames) num_threads ≫= fun tasks =>
  run_in_order tasks frames total_frames (initial_state (length frames)).

(** The preload branch of [main] up to [fut.get()]: the converted frames. *)
Definition convert_batch (num_threads : nat) (total_frames : Z) (frames : list Mat)
  : result (list string) :=
  run_batch num_threads total_frames frames ≫= fun s => Ok (ascii_frames s).

(** ** Any schedule of the threads

    A thread is the loop variable and the bound of its [process_frames]
    call; a step lets one unfinished thread run one iteration of its loop.
    For the converted frames nothing is lost by taking whole iterations: an
    iteration writes one slot, with a value that depends on the frame only,
    and counts one frame.  The progress bar is not treated at this grain
    but at the finer one of [move_worker] below. *)
Record Thread : Type := mkThread { th_i : nat; th_end : nat }.

Record Pool : Type := mkPool { threads : list Thread; shared : State }.

Definition thread_of_task (t : Task) : Thread := {| th_i := t_start t; th_end := t_end t |}.

Definition initial_pool (tasks : list Task) (n : nat) : Pool :=
  {| threads := map thread_of_task tasks; shared := initial_state n |}.

Inductive step (frames : list Mat) (total_frames : Z) : Pool -> Pool -> Prop :=
| step_thread (p : Pool) (k : nat) (th : Thread) (s' : State) :
    threads p !! k = Some th ->
    (th_i th < th_end th)%nat ->
    process_frame frames total_frames (th_i th) (shared p) = Ok s' ->
    step frames total_frames p
      {| threads := <[k := {| th_i := S (th_i th); th_end := th_end th |}]> (threads p);
         shared := s' |}.

Inductive steps (frames : list Mat) (total_frames : Z) : Pool -> Pool -> Prop :=
| steps_refl (p : Pool) : steps frames total_frames p p
| steps_snoc (p q r : Pool) :
    steps frames total_frames p q -> step frames total_frames q r ->
    steps frames total_frames p r.

(** A thread can run but its next access is out of range. *)
Definition faulty (frames : list Mat) (total_frames : Z) (p : Pool) : Prop :=
  exists k th, threads p !! k = Some th /\ (th_i th < th_end th)%nat /\
               process_frame frames total_frames (th_i th) (shared p) = OutOfRange.

Definition finished (p : Pool) : Prop :=
  Forall (fun th => (th_end th <= th_i th)%nat) (threads p).

(** The frames still to convert: what is left of every loop. *)
Definition remaining (p : Pool) : nat :=
  sum_list (map (fun th => th_end th - th_i th)%nat (threads p)).

(** ** Schedules at the grain of the progress bar

    Between [++completed_frames] and the load of the counter for
    [display_progress] other threads can count their frames.  A worker is
    therefore the loop variable, the bound and whether the frame at hand
    has been counted; a move of worker [k] is either the first half of its
    iteration ([count_frame]) or the second ([show_progress]).  The call of
    [display_progress] in the second half is taken as a whole: these are
    the executions in which the calls do not overlap.  A worker whose next
    access is out of range has no move. *)
Record Worker : Type := mkWorker { w_i : nat; w_end : nat; w_counted : bool }.

Record Crew : Type := mkCrew { workers : list Worker; crew_state : State }.

Definition worker_of_task (t : Task) : Worker :=
  {| w_i := t_start t; w_end := t_end t; w_counted := false |}.

Definition initial_crew (tasks : list Task) (n : nat) : Crew :=
  {| workers := map worker_of_task tasks; crew_state := initial_state n |}.

Definition move_worker (frames : list Mat) (total_frames : Z) (k : nat) (c : Crew)
  : option Crew :=
  match workers c !! k with
  | None => None
  | Some w =>
      if w_counted w then
        Some {| workers := <[k := {| w_i := S (w_i w); w_end := w_end w;
                                     w_counted := false |}]> (workers c);
                crew_state := show_progress total_frames (crew_state c) |}
      else if decide (w_i w < w_end w)%nat then
        match count_frame frames (w_i w) (crew_state c) with
        | Ok s' =>
            Some {| workers := <[k := {| w_i := w_i w; w_end := w_end w;
                                         w_counted := true |}]> (workers c);
                    crew_state := s' |}
        | _ => None
        end
      else None
  end.

(** The workers move in the order [schedule] names them. *)
Fixpoint run_schedule (frames : list Mat) (total_frames : Z) (schedule : list nat)
  (c : Crew) : option Crew :=
  match schedule with
  | [] => Some c
  | k :: schedule' =>
      match move_worker frames total_frames k c with
      | Some c' => run_schedule frames total_frames schedule' c'
      | None => None
      end
  end.

(** Every worker is through with its loop. *)
Definition all_done (c : Crew) : Prop :=
  Forall (fun w => w_counted w = false /\ (w_end w <= w_i w)%nat) (workers c).

(** A pool seen at the finer grain: no thread is inside an iteration. *)
Definition crew_of_pool (p : Pool) : Crew :=
  {| workers := map (fun th => {| w_i := th_i th; w_end := th_end th; w_counted := false |})
                    (threads p);
     crew_state := shared p |}.

(** ** Notions used to state the results *)

(** Slot [j] of the output holds the conversion of frame [j]. *)
Definition converted (frames : list Mat) (s : State) (j : nat) : Prop :=
  ascii_frames s !! j = convert_frame_to_ascii <$> (frames !! j).

Definition in_task (j : nat) (t : Task) : Prop := (t_start t <= j < t_end t)%nat.

(** The task of thread [i] in closed form. *)
Definition nth_task (n num_threads i : nat) : Task :=
  {| t_start := i * (n / num_threads);
     t_end := if (i =? num_threads - 1)%nat then n else (i + 1) * (n / num_threads) |}.

(** A task stays inside a batch of [n] frames. *)
Definition valid_task (n : nat) (t : Task) : Prop := (t_start t <= t_end t <= n)%nat.

(** What every schedule maintains: the output keeps its size, every thread
    is inside the range of its task, and the slots a thread has passed hold
    the converted frames. *)
Definition pool_inv (frames : list Mat) (tasks : list Task) (p : Pool) : Prop :=
  length (ascii_frames (shared p)) = length frames /\
  Forall2 (fun t th => th_end th = t_end t /\ (t_start t <= th_i th <= t_end t)%nat)
          tasks (threads p) /\
  forall k t th j, tasks !! k = Some t -> threads p !! k = Some th ->
                   (t_start t <= j < th_i th)%nat -> converted frames (shared p) j.

(** What the reports written so far satisfy: they are numbers, none is
    lower than an earlier one, none exceeds [last_progress], and
    [last_progress] is the last report (or still -1 when there is none). *)
Definition report_inv (s : State) : Prop :=
  StronglySorted f32_le (cout s) /\
  Forall (fun x => f32_le x (last_progress s)) (cout s) /\
  is_nan (last_progress s) = false /\
  (cout s = [] -> last_progress s = f32_of_int (-1)) /\
  (cout s <> [] -> last (cout s) = Some (last_progress s)).

(** A batch of two frames, 1 x 1 and 2 x 2. *)
Definition two_frames : list Mat :=
  [mkMat 1 1 (fun _ _ => black); mkMat 2 2 (fun _ _ => black)].

(** A batch of 22 frames of one black pixel. *)
Definition frames22 : list Mat := replicate 22 (mkMat 1 1 (fun _ _ => black)).

(** A batch of 80 such frames. *)
Definition frames80 : list Mat := replicate 80 (mkMat 1 1 (fun _ _ => black)).

(* ===================================================================== *)
(** * Command line *)
(* ===================================================================== *)

(** The local [video_path] and the two reference parameters of
    [parse_arguments]. *)
Record Args : Type := mkArgs { video_path : string; preload : bool; clear_screen : bool }.

(** The loop of [parse_arguments]; [args] is [argv] from index [i] on.  The
    value of [--video] is [argv[++i]], taken when [i + 1 < argc]. *)
Fixpoint parse_loop (args : list string) (st : Args) : Args :=
  match args with
  | [] => st
  | arg :: rest =>
      if (String.eqb arg "--preload" || String.eqb arg "-p")%bool then
        parse_loop rest {| video_path := video_path st; preload := true;
                           clear_screen := clear_screen st |}
      else if (String.eqb arg "--clear" || String.eqb arg "-c")%bool then
        parse_loop rest {| video_path := video_path st; preload := preload st;
                           clear_screen := true |}
      else if (String.eqb arg "--video" || String.eqb arg "-v")%bool then
        match rest with
        | value :: rest' =>
            parse_loop rest' {| video_path := value; preload := preload st;
                                clear_screen := clear_screen st |}
        | [] => st
        end
      else parse_loop rest st
  end.

(** The returned optional and the flags as the call leaves them. *)
Definition parse_arguments (argv : list string) (preload0 clear_screen0 : bool)
  : option string * bool * bool :=
  let st := parse_loop (drop 1 argv)
              {| video_path := ""; preload := preload0; clear_screen := clear_screen0 |} in
  (if String.eqb (video_path st) "" then None else Some (video_path st),
   preload st, clear_screen st).

(** A command line as the options it is meant to hold, each in its long or
    short spelling, and the arguments it is written as. *)
Inductive cli_option : Type :=
| OptPreload (long : bool)
| OptClear (long : bool)
| OptVideo (long : bool) (path : string)
| OptOther (text : string).

Definition option_spelling (s : string) : bool :=
  (String.eqb s "--preload" || String.eqb s "-p" || String.eqb s "--clear"
   || String.eqb s "-c" || String.eqb s "--video" || String.eqb s "-v")%bool.

Definition spell (o : cli_option) : list string :=
  match o with
  | OptPreload long => [if long then "--preload" else "-p"]
  | OptClear long => [if long then "--clear" else "-c"]
  | OptVideo long path => [if long then "--video" else "-v"; path]
  | OptOther text => [text]
  end.

Definition spell_all (os : list cli_option) : list string := concat (map spell os).

Definition well_spelled (o : cli_option) : Prop :=
  match o with
  | OptOther text => option_spelling text = false
  | _ => True
  end.

(** What the options ask for, on top of [st]. *)
Definition apply_option (st : Args) (o : cli_option) : Args :=
  match o with
  | OptPreload _ => {| video_path := video_path st; preload := true;
                       clear_screen := clear_screen st |}
  | OptClear _ => {| video_path := video_path st; preload := preload st;
                     clear_screen := true |}
  | OptVideo _ path => {| video_path := path; preload := preload st;
                          clear_screen := clear_screen st |}
  | OptOther _ => st
  end.

(* ===================================================================== *)
(** * Playback and the two modes of [main] *)
(* ===================================================================== *)

(** What has been written to the terminal and the pauses taken, in
    milliseconds. *)
Record Terminal : Type := mkTerminal { screen : string; pauses : list Z }.

(** [static_cast<int>(1000.0f / frame_rate)], in binary32. *)
Definition frame_pause (frame_rate : spec_float) : Z :=
  trunc_spec (f32_div (f32_of_int 1000) frame_rate).

Definition cursor_home : string := String ESC "[H".
Definition clear_and_home : string := String ESC "[H" ++ String ESC "[2J".

Definition display_ascii_video (ascii_frames : list string) (clear_screen : bool)
  (frame_rate : spec_float) (t : Terminal) : Terminal :=
  fold_left
    (fun t frame =>
       let t1 := {| screen := screen t ++ (if clear_screen then clear_and_home else cursor_home);
                    pauses := pauses t |} in
       let t2 := {| screen := screen t1 ++ frame; pauses := pauses t1 |} in
       {| screen := screen t2; pauses := (pauses t2 ++ [frame_pause frame_rate])%list |})
    ascii_frames t.



(** The height of the text frames, from the metadata of the video. *)
Definition custom_width : Z := 480.

(** [static_cast<int>((custom_width * frame_height / frame_width) * 0.4)]:
    the product and the quotient are computed on [int], where an overflow
    is undefined behaviour (the product is a multiple of 480, hence never
    [INT_MIN], so the quotient of a product in range is in range); the
    quotient is converted to [double]. *)
Definition custom_height (frame_width frame_height : Z) : result Z :=
  let product := (custom_width * frame_height)%Z in
  if negb ((INT_MIN <=? product) && (product <=? INT_MAX))%Z then OutOfRange
  else if (frame_width =? 0)%Z then DivisionByZero
  else Ok (static_cast_int
             (double_of_int (Z.quot product frame_width) * 0x1.999999999999ap-2)%float).

(* ===================================================================== *)
(** * Reading a glyph unit back *)
(* ===================================================================== *)

Fixpoint read_digits (acc : Z) (s : string) : Z * string :=
  match s with
  | EmptyString => (acc, s)
  | String c s' =>
      if is_digit c then read_digits (10 * acc + (Z.of_nat (nat_of_ascii c) - 48)) s'
      else (acc, s)
  end.

Definition expect (c : ascii) (s : string) : option string :=
  match s with
  | EmptyString => None
  | String d s' => if Ascii.eqb c d then Some s' else None
  end.

Fixpoint expect_all (p : string) (s : string) : option string :=
  match p with
  | EmptyString => Some s
  | String c p' => match expect c s with
                   | Some s' => expect_all p' s'
                   | None => None
                   end
  end.

(** The three fields of the escape, in the order written, and the glyph. *)
Definition decode_unit (s : string) : option (Z * Z * Z * ascii) :=
  match expect_all (String ESC "[38;2;") s with
  | None => None
  | Some s1 =>
      let (r, s2) := read_digits 0 s1 in
      match expect ";" s2 with
      | None => None
      | Some s3 =>
          let (g, s4) := read_digits 0 s3 in
          match expect ";" s4 with
          | None => None
          | Some s5 =>
              let (b, s6) := read_digits 0 s5 in
              match s6 with
              | String "m" (String glyph EmptyString) => Some (r, g, b, glyph)
              | _ => None
              end
          end
      end
  end.

(* ===================================================================== *)
(** * The cells of the progress bar *)
(* ===================================================================== *)

(** The cells of the bar for a position [pos]. *)
Definition bar_cells (pos : Z) : string :=
  if (pos <? 0)%Z then repeat_string 50 " "
  else if (pos <? 50)%Z then
    repeat_string (Z.to_nat pos) "=" ++ ">" ++ repeat_string (49 - Z.to_nat pos) " "
  else repeat_string 50 "=".

(** Checking a property of the integers [z], [z + 1], ... by evaluation,
    [count] of them. *)
Fixpoint Z_forall_from (P : Z -> bool) (z : Z) (count : nat) : bool :=
  match count with
  | O => true
  | S count' => P z && Z_forall_from P (z + 1) count'
  end.

(* ===================================================================== *)
(** * Strings and loops *)
(* ===================================================================== *)

Lemma append_nil_r (s : string) : s ++ "" = s.
Proof. induction s as [|c s IH]; simpl; [reflexivity | now rewrite IH]. Qed.

Lemma append_assoc (s t u : string) : (s ++ t) ++ u = s ++ (t ++ u).
Proof. induction s as [|c s IH]; simpl; [reflexivity | now rewrite IH]. Qed.

Lemma count_char_app (c : ascii) (s t : string) :
  count_char c (s ++ t) = (count_char c s + count_char c t)%nat.
Proof. induction s as [|d s IH]; simpl; [reflexivity | rewrite IH; lia]. Qed.

Lemma for_loop_fold {St : Type} (body : nat -> St -> St) (n i : nat) (s : St) :
  for_loop n i body s = fold_left (fun acc j => body j acc) (seq i n) s.
Proof. revert i s. induction n as [|n IH]; intros i s; simpl; [reflexivity | apply IH]. Qed.

Lemma for_loop_snoc {St : Type} (body : nat -> St -> St) (n i : nat) (s : St) :
  for_loop (S n) i body s = body (i + n)%nat (for_loop n i body s).
Proof.
  revert i s. induction n as [|n IH]; intros i s.
  - simpl. now rewrite Nat.add_0_r.
  - change (for_loop (S (S n)) i body s) with (for_loop (S n) (S i) body (body i s)).
    rewrite IH. simpl. now rewrite Nat.add_succ_r.
Qed.

(** A loop that only appends to a stream writes the pieces in index order. *)
Lemma for_loop_append (f : nat -> string) (n i : nat) (buf : string) :
  for_loop n i (fun j acc => acc ++ f j) buf = buf ++ concat_strings (map f (seq i n)).
Proof.
  revert i buf. induction n as [|n IH]; intros i buf; simpl.
  - now rewrite append_nil_r.
  - rewrite IH. apply append_assoc.
Qed.

Lemma Z_range_forall_spec (hi : nat) (P : Z -> bool) :
  Z_range_forall hi P = true ->
  forall z : Z, (0 <= z < Z.of_nat hi)%Z -> P z = true.
Proof.
  unfold Z_range_forall. intros H z Hz.
  rewrite forallb_forall in H.
  specialize (H (Z.to_nat z)). rewrite Z2Nat.id in H by lia.
  apply H. apply in_seq. lia.
Qed.

(* ===================================================================== *)
(** * Glyph mapper *)
(* ===================================================================== *)

Lemma spec_glyph_index_mono (b b' : Q) :
  (b <= b')%Q -> (spec_glyph_index b <= spec_glyph_index b')%Z.
Proof.
  intros H. unfold spec_glyph_index. apply Qfloor_resp_le.
  unfold Qdiv. apply Qmult_le_compat_r; [|discriminate].
  apply Qmult_le_compat_r; [exact H|discriminate].
Qed.

Lemma spec_glyph_index_bounds (b : Q) :
  (0 <= b)%Q -> (b <= 255)%Q -> (0 <= spec_glyph_index b <= K - 1)%Z.
Proof.
  intros H0 H1. split.
  - change 0%Z with (spec_glyph_index 0). now apply spec_glyph_index_mono.
  - change (K - 1)%Z with (spec_glyph_index 255). now apply spec_glyph_index_mono.
Qed.

Lemma string_at_ramp (i : Z) :
  (0 <= i <= K - 1)%Z -> ramp_char (string_at ASCII_CHARS i).
Proof.
  intros Hi. exists (Z.to_nat i). split; [unfold K in *; lia|].
  assert (Hc : (i = 0 \/ i = 1 \/ i = 2 \/ i = 3 \/ i = 4 \/ i = 5 \/ i = 6 \/ i = 7
                \/ i = 8 \/ i = 9)%Z) by (unfold K in Hi; lia).
  repeat destruct Hc as [-> | Hc]; try subst i; reflexivity.
Qed.

Lemma spec_glyph_unclamped (b : Q) :
  (0 <= b)%Q -> (b <= 255)%Q ->
  spec_glyph b = string_at ASCII_CHARS (spec_glyph_index b).
Proof.
  intros H0 H1. unfold spec_glyph.
  destruct (spec_glyph_index_bounds b H0 H1) as [_ Hhi].
  now rewrite Z.min_l.
Qed.

(** The thirds [s / 3] of the channel sums lie in [0, 255]. *)
Lemma mean_in_range (s : Z) :
  (0 <= s <= 765)%Z -> (0 <= inject_Z s / 3)%Q /\ (inject_Z s / 3 <= 255)%Q.
Proof.
  intros Hs. unfold Qdiv, Qle. simpl. lia.
Qed.

(** On every brightness the encoder can pass, the binary64 computation of
    the index is the floor of the exact quotient. *)
Lemma glyph_index_mean (s : Z) :
  (0 <= s <= 765)%Z ->
  glyph_index (double_of_int s / 3)%float = spec_glyph_index (inject_Z s / 3).
Proof.
  intros Hs. apply Z.eqb_eq.
  apply (Z_range_forall_spec 766
           (fun s => (glyph_index (double_of_int s / 3)%float
                      =? spec_glyph_index (inject_Z s / 3))%Z)).
  - vm_compute. reflexivity.
  - lia.
Qed.

Lemma glyph_index_integer (n : Z) :
  (0 <= n <= 255)%Z ->
  glyph_index (double_of_int n) = spec_glyph_index (inject_Z n).
Proof.
  intros Hn. apply Z.eqb_eq.
  apply (Z_range_forall_spec 256
           (fun n => (glyph_index (double_of_int n) =? spec_glyph_index (inject_Z n))%Z)).
  - vm_compute. reflexivity.
  - lia.
Qed.

Lemma pixel_to_ascii_mean (s : Z) :
  (0 <= s <= 765)%Z ->
  pixel_to_ascii (double_of_int s / 3)%float = spec_glyph (inject_Z s / 3).
Proof.
  intros Hs. destruct (mean_in_range s Hs) as [H0 H1].
  rewrite spec_glyph_unclamped by assumption.
  unfold pixel_to_ascii. now rewrite glyph_index_mean.
Qed.

Lemma spec_glyph_ramp (b : Q) :
  (0 <= b)%Q -> (b <= 255)%Q -> ramp_char (spec_glyph b).
Proof.
  intros H0 H1. rewrite spec_glyph_unclamped by assumption.
  apply string_at_ramp. now apply spec_glyph_index_bounds.
Qed.

(** C5. For every brightness [b] in [0, 255] the glyph mapper returns one of
    the K = 10 characters of the ramp: the index [floor (b * K / 256)] lies in
    [0, K - 1] (it is K - 1 at b = 255), so clamping it to K - 1 changes
    nothing, and the index never decreases when the brightness grows.  The
    code computes exactly this index, in binary64, on every integer
    brightness [n] and on every mean [s / 3] of three channels. *)
Theorem glyph_mapper_ramp_monotone (b b' : Q) (s s' n : Z) :
  (0 <= b)%Q -> (b <= b')%Q -> (b' <= 255)%Q ->
  (0 <= s)%Z -> (s <= s')%Z -> (s' <= 765)%Z ->
  (0 <= n <= 255)%Z ->
  (0 <= spec_glyph_index b <= K - 1)%Z /\
  Z.min (spec_glyph_index b) (K - 1) = spec_glyph_index b /\
  spec_glyph_index 255 = (K - 1)%Z /\
  ramp_char (spec_glyph b) /\
  (spec_glyph_index b <= spec_glyph_index b')%Z /\
  glyph_index (double_of_int n) = spec_glyph_index (inject_Z n) /\
  pixel_to_ascii (double_of_int n) = spec_glyph (inject_Z n) /\
  glyph_index (double_of_int s / 3)%float = spec_glyph_index (inject_Z s / 3) /\
  pixel_to_ascii (double_of_int s / 3)%float = spec_glyph (inject_Z s / 3) /\
  ramp_char (pixel_to_ascii (double_of_int s / 3)%float) /\
  (0 <= glyph_index (double_of_int s / 3)%float <= K - 1)%Z /\
  (glyph_index (double_of_int s / 3)%float <= glyph_index (double_of_int s' / 3)%float)%Z.
Proof.
  intros Hb0 Hbb Hb1 Hs0 Hss Hs1 Hn.
  assert (Hb : (b <= 255)%Q) by (eapply Qle_trans; eassumption).
  assert (Hs : (0 <= s <= 765)%Z) by lia.
  assert (Hs' : (0 <= s' <= 765)%Z) by lia.
  destruct (mean_in_range s Hs) as [Hm0 Hm1].
  assert (HnQ : (0 <= inject_Z n)%Q /\ (inject_Z n <= 255)%Q)
    by (unfold Qle; simpl; lia).
  destruct HnQ as [Hn0 Hn1].
  pose proof (spec_glyph_index_bounds b Hb0 Hb) as Hidx.
  repeat split; try (apply Hidx).
  - apply Z.min_l. apply Hidx.
  - now apply spec_glyph_ramp.
  - now apply spec_glyph_index_mono.
  - now apply glyph_index_integer.
  - rewrite spec_glyph_unclamped by assumption.
    unfold pixel_to_ascii. now rewrite glyph_index_integer.
  - now apply glyph_index_mean.
  - now apply pixel_to_ascii_mean.
  - rewrite pixel_to_ascii_mean by assumption. now apply spec_glyph_ramp.
  - rewrite glyph_index_mean by assumption. now apply spec_glyph_index_bounds.
  - rewrite glyph_index_mean by assumption. now apply spec_glyph_index_bounds.
  - rewrite !glyph_index_mean by assumption.
    apply spec_glyph_index_mono. unfold Qdiv, Qle. simpl. lia.
Qed.

Lemma glyph_mapper_ramp_monotone_witness :
  (0 <= spec_glyph_index 128 <= K - 1)%Z /\
  Z.min (spec_glyph_index 128) (K - 1) = spec_glyph_index 128 /\
  spec_glyph_index 255 = (K - 1)%Z /\
  ramp_char (spec_glyph 128) /\
  (spec_glyph_index 128 <= spec_glyph_index 255)%Z /\
  glyph_index (double_of_int 255) = spec_glyph_index (inject_Z 255) /\
  pixel_to_ascii (double_of_int 255) = spec_glyph (inject_Z 255) /\
  glyph_index (double_of_int 384 / 3)%float = spec_glyph_index (inject_Z 384 / 3) /\
  pixel_to_ascii (double_of_int 384 / 3)%float = spec_glyph (inject_Z 384 / 3) /\
  ramp_char (pixel_to_ascii (double_of_int 384 / 3)%float) /\
  (0 <= glyph_index (double_of_int 384 / 3)%float <= K - 1)%Z /\
  (glyph_index (double_of_int 384 / 3)%float <= glyph_index (double_of_int 765 / 3)%float)%Z.
Proof.
  apply (glyph_mapper_ramp_monotone 128 255 384 765 255);
    first [ discriminate | lia ].
Defined.

(* ===================================================================== *)
(** * Colour encoder *)
(* ===================================================================== *)

Lemma int_of_uchar_range (c : Byte.byte) : (0 <= int_of_uchar c <= 255)%Z.
Proof. unfold int_of_uchar. pose proof (Byte.to_N_bounded c). lia. Qed.

Lemma to_string_uchar_plain (c : Byte.byte) :
  plain_decimal (int_of_uchar c) (to_string (int_of_uchar c)) = true.
Proof. destruct c; vm_compute; reflexivity. Qed.

Lemma channel_sum_range (r g b : Byte.byte) :
  (0 <= int_of_uchar r + int_of_uchar g + int_of_uchar b <= 765)%Z.
Proof.
  pose proof (int_of_uchar_range r). pose proof (int_of_uchar_range g).
  pose proof (int_of_uchar_range b). lia.
Qed.

Lemma apply_color_to_ascii_spec (pixel : Vec3b) :
  apply_color_to_ascii pixel
  = true_color_escape (int_of_uchar (vec_at pixel 2)) (int_of_uchar (vec_at pixel 1))
      (int_of_uchar (vec_at pixel 0))
    ++ String (spec_glyph (mean3 (int_of_uchar (vec_at pixel 2)) (int_of_uchar (vec_at pixel 1))
                             (int_of_uchar (vec_at pixel 0)))) "".
Proof.
  unfold apply_color_to_ascii, true_color_escape, mean3.
  rewrite pixel_to_ascii_mean by apply channel_sum_range.
  reflexivity.
Qed.

Lemma ramp_char_plain (c : ascii) :
  ramp_char c -> Ascii.eqb newline c = false /\ Ascii.eqb ESC c = false.
Proof.
  intros (i & Hi & Hget). unfold K in Hi.
  do 10 (destruct i as [|i]; [injection Hget as <-; split; reflexivity|]).
  simpl in Hi. lia.
Qed.

Lemma to_string_uchar_count (c : Byte.byte) :
  count_char newline (to_string (int_of_uchar c)) = 0%nat /\
  count_char ESC (to_string (int_of_uchar c)) = 0%nat.
Proof. destruct c; split; vm_compute; reflexivity. Qed.

(** A glyph unit holds no newline and exactly one escape character. *)
Lemma apply_color_to_ascii_count (pixel : Vec3b) :
  count_char newline (apply_color_to_ascii pixel) = 0%nat /\
  count_char ESC (apply_color_to_ascii pixel) = 1%nat.
Proof.
  rewrite apply_color_to_ascii_spec. unfold true_color_escape, mean3.
  set (r := vec_at pixel 2). set (g := vec_at pixel 1). set (b := vec_at pixel 0).
  destruct (to_string_uchar_count r) as [Hr1 Hr2].
  destruct (to_string_uchar_count g) as [Hg1 Hg2].
  destruct (to_string_uchar_count b) as [Hb1 Hb2].
  destruct (mean_in_range _ (channel_sum_range r g b)) as [Hm0 Hm1].
  destruct (ramp_char_plain _ (spec_glyph_ramp _ Hm0 Hm1)) as [Hn He].
  split.
  - repeat first [rewrite count_char_app | progress cbn [count_char String.append]].
    rewrite Hr1, Hg1, Hb1, Hn. reflexivity.
  - repeat first [rewrite count_char_app | progress cbn [count_char String.append]].
    rewrite Hr2, Hg2, Hb2, He. reflexivity.
Qed.

(** C4. For every pixel, with [r], [g], [b] the channels as the code reads
    them, the colour encoder returns exactly ESC (byte 0x1B), [[38;2;], the
    three channels in decimal without leading zeros or padding, separated by
    [;], then [m], then exactly one character: the glyph of the ramp that the
    glyph mapper selects for the mean (r+g+b)/3 taken over the reals. *)
Theorem color_encoder_wire_format (pixel : Vec3b) :
  let r := int_of_uchar (vec_at pixel 2) in
  let g := int_of_uchar (vec_at pixel 1) in
  let b := int_of_uchar (vec_at pixel 0) in
  apply_color_to_ascii pixel
  = (String ESC "[38;2;" ++ to_string r ++ ";" ++ to_string g ++ ";" ++ to_string b ++ "m")
      ++ String (spec_glyph (mean3 r g b)) ""
  /\ nat_of_ascii ESC = 27%nat
  /\ plain_decimal r (to_string r) = true
  /\ plain_decimal g (to_string g) = true
  /\ plain_decimal b (to_string b) = true
  /\ spec_glyph (mean3 r g b) = string_at ASCII_CHARS (spec_glyph_index (mean3 r g b))
  /\ ramp_char (spec_glyph (mean3 r g b)).
Proof.
  intros r g b.
  destruct (mean_in_range _ (channel_sum_range (vec_at pixel 2) (vec_at pixel 1)
                               (vec_at pixel 0))) as [Hm0 Hm1].
  split; [apply apply_color_to_ascii_spec|].
  split; [reflexivity|].
  split; [apply to_string_uchar_plain|].
  split; [apply to_string_uchar_plain|].
  split; [apply to_string_uchar_plain|].
  split; [now apply spec_glyph_unclamped | now apply spec_glyph_ramp].
Qed.

(** The code itself does not clamp: at brightness 256, just above the
    range, its index is K and [ASCII_CHARS[K]] is the terminating NUL, where
    the clamped mapper of the specification gives the last glyph. *)
Example pixel_to_ascii_unclamped :
  glyph_index (double_of_int 256) = K /\
  pixel_to_ascii (double_of_int 256) = Ascii.zero /\
  spec_glyph 256 = "$"%char.
Proof. repeat split; vm_compute; reflexivity. Qed.

(** The mean is not truncated before the mapping: for the stored pixel
    (77, 0, 0) the integer mean 25 would select index 0, the code selects
    index 1. *)
Example mean_is_not_truncated :
  truncated_mean_index 0 0 77 = 0%Z /\
  spec_glyph_index (mean3 0 0 77) = 1%Z /\
  apply_color_to_ascii (mkVec3b Byte.x4d Byte.x00 Byte.x00)
  = String ESC "[38;2;0;0;77m-".
Proof. repeat split; vm_compute; reflexivity. Qed.

(** C10. A pixel stored as (c0, c1, c2) is encoded with c2 in the first
    field of the escape, c1 in the second and c0 in the third: the stored
    triple is read as (B, G, R).  The glyph depends on the sum of the three
    components only, so it is the same whichever way the triple is read. *)
Theorem color_encoder_reads_bgr (c0 c1 c2 : Byte.byte) :
  apply_color_to_ascii (mkVec3b c0 c1 c2)
  = true_color_escape (int_of_uchar c2) (int_of_uchar c1) (int_of_uchar c0)
      ++ String (spec_glyph (mean3 (int_of_uchar c0) (int_of_uchar c1) (int_of_uchar c2))) ""
  /\ apply_color_to_ascii (mkVec3b c2 c1 c0)
  = true_color_escape (int_of_uchar c0) (int_of_uchar c1) (int_of_uchar c2)
      ++ String (spec_glyph (mean3 (int_of_uchar c0) (int_of_uchar c1) (int_of_uchar c2))) ""
  /\ true_color_escape 3 2 1 = String ESC "[38;2;3;2;1m"
  /\ apply_color_to_ascii (mkVec3b Byte.x01 Byte.x02 Byte.x03) = String ESC "[38;2;3;2;1m.".
Proof.
  assert (Hsum : mean3 (int_of_uchar c2) (int_of_uchar c1) (int_of_uchar c0)
                 = mean3 (int_of_uchar c0) (int_of_uchar c1) (int_of_uchar c2)).
  { unfold mean3. f_equal. f_equal. lia. }
  split; [|split; [|split]].
  - rewrite apply_color_to_ascii_spec. simpl. now rewrite Hsum.
  - rewrite apply_color_to_ascii_spec. reflexivity.
  - reflexivity.
  - vm_compute. reflexivity.
Qed.

(* ===================================================================== *)
(** * Frame converter *)
(* ===================================================================== *)

Lemma for_loop_ext {St : Type} (body body' : nat -> St -> St) (n i : nat) (s : St) :
  (forall j t, body j t = body' j t) ->
  for_loop n i body s = for_loop n i body' s.
Proof.
  intros Hext. revert i s. induction n as [|n IH]; intros i s; simpl; [reflexivity|].
  rewrite Hext. apply IH.
Qed.

Lemma count_char_concat (c : ascii) (k : nat) (l : list string) :
  Forall (fun s => count_char c s = k) l ->
  count_char c (concat_strings l) = (k * length l)%nat.
Proof.
  induction 1 as [|s l Hs _ IH]; simpl; [lia|].
  rewrite count_char_app, Hs, IH. lia.
Qed.

Lemma lines_from_app (cur s rest : string) :
  count_char newline s = 0%nat ->
  lines_from cur (s ++ String newline rest) = (cur ++ s) :: lines_from "" rest.
Proof.
  revert cur. induction s as [|c s IH]; intros cur Hs;
    cbn [String.append lines_from count_char] in *.
  - rewrite Ascii.eqb_refl. now rewrite append_nil_r.
  - rewrite Ascii.eqb_sym.
    destruct (Ascii.eqb newline c) eqn:Hc; [lia|].
    rewrite IH by lia.
    now rewrite append_assoc.
Qed.

Lemma lines_concat (l : list string) :
  Forall (fun s => count_char newline s = 0%nat) l ->
  lines (concat_strings (map (fun s => s ++ String newline "") l)) = l.
Proof.
  unfold lines. induction 1 as [|s l Hs _ IH]; simpl; [reflexivity|].
  rewrite append_assoc. simpl. rewrite lines_from_app by assumption.
  simpl. now rewrite IH.
Qed.

Lemma row_units_length (frame : Mat) (i : nat) :
  length (row_units frame i) = cols frame.
Proof. unfold row_units. now rewrite length_map, length_seq. Qed.

Lemma row_text_count (frame : Mat) (i : nat) :
  count_char newline (row_text frame i) = 0%nat /\
  count_char ESC (row_text frame i) = cols frame.
Proof.
  unfold row_text. split.
  - rewrite (count_char_concat newline 0); [reflexivity|].
    unfold row_units. apply Forall_map, Forall_forall. intros j _.
    apply apply_color_to_ascii_count.
  - rewrite (count_char_concat ESC 1), row_units_length; [lia|].
    unfold row_units. apply Forall_map, Forall_forall. intros j _.
    apply apply_color_to_ascii_count.
Qed.

(** The nested loops write the rows top to bottom, each followed by one
    newline. *)
Lemma convert_frame_to_ascii_rows (frame : Mat) :
  convert_frame_to_ascii frame
  = concat_strings (map (fun s => s ++ String newline "")
                        (map (row_text frame) (seq 0 (rows frame)))).
Proof.
  unfold convert_frame_to_ascii, for_range. rewrite !Nat.sub_0_r.
  rewrite (for_loop_ext _ (fun i acc => acc ++ (row_text frame i ++ String newline ""))).
  - rewrite for_loop_append. simpl. now rewrite map_map.
  - intros i acc. rewrite for_loop_append. apply append_assoc.
Qed.

(** C3. For every frame of height H and width W the converter returns the
    rows top to bottom, each row the W glyph units of its pixels left to
    right followed by one newline: the text has exactly H newline-terminated
    lines, line i is the text of row i, and every line holds exactly W escape
    characters and no newline.  The 2 x 2 all-black frame gives two lines,
    each [ESC[38;2;0;0;0m.] twice. *)
Theorem frame_converter_shape (frame : Mat) :
  convert_frame_to_ascii frame
  = concat_strings (map (fun s => s ++ String newline "")
                        (map (row_text frame) (seq 0 (rows frame))))
  /\ lines (convert_frame_to_ascii frame) = map (row_text frame) (seq 0 (rows frame))
  /\ length (lines (convert_frame_to_ascii frame)) = rows frame
  /\ count_char newline (convert_frame_to_ascii frame) = rows frame
  /\ Forall (fun i => row_text frame i = concat_strings (row_units frame i)
                      /\ row_units frame i
                         = map (fun j => apply_color_to_ascii (at_ frame i j))
                               (seq 0 (cols frame))
                      /\ length (row_units frame i) = cols frame
                      /\ count_char ESC (row_text frame i) = cols frame
                      /\ count_char newline (row_text frame i) = 0%nat)
            (seq 0 (rows frame))
  /\ convert_frame_to_ascii (mkMat 2 2 (fun _ _ => black))
     = (String ESC "[38;2;0;0;0m." ++ String ESC "[38;2;0;0;0m." ++ String newline "")
         ++ (String ESC "[38;2;0;0;0m." ++ String ESC "[38;2;0;0;0m." ++ String newline "")
  /\ lines (convert_frame_to_ascii (mkMat 2 2 (fun _ _ => black)))
     = [ String ESC "[38;2;0;0;0m." ++ String ESC "[38;2;0;0;0m.";
         String ESC "[38;2;0;0;0m." ++ String ESC "[38;2;0;0;0m." ].
Proof.
  assert (Hlines : lines (convert_frame_to_ascii frame)
                   = map (row_text frame) (seq 0 (rows frame))).
  { rewrite convert_frame_to_ascii_rows. apply lines_concat.
    apply Forall_map, Forall_forall. intros i _. apply row_text_count. }
  split; [apply convert_frame_to_ascii_rows|].
  split; [exact Hlines|].
  split; [now rewrite Hlines, length_map, length_seq|].
  split.
  { rewrite convert_frame_to_ascii_rows.
    rewrite (count_char_concat newline 1).
    - rewrite !length_map, length_seq. lia.
    - apply Forall_map, Forall_map, Forall_forall. intros i _.
      cbn beta. rewrite count_char_app.
      destruct (row_text_count frame i) as [-> _]. reflexivity. }
  split.
  { apply Forall_forall. intros i _.
    split; [reflexivity|]. split; [reflexivity|].
    split; [apply row_units_length|].
    destruct (row_text_count frame i) as [Hn He]. now split. }
  split; vm_compute; reflexivity.
Qed.

(* ===================================================================== *)
(** * Dispatch: the tasks *)
(* ===================================================================== *)

Lemma for_loop_collect {A : Type} (f : nat -> A) (n i : nat) (l : list A) :
  for_loop n i (fun j acc => (acc ++ [f j])%list) l = (l ++ map f (seq i n))%list.
Proof.
  revert i l. induction n as [|n IH]; intros i l; simpl.
  - now rewrite app_nil_r.
  - rewrite IH. now rewrite <- app_assoc.
Qed.

Lemma spawn_tasks (n num_threads : nat) :
  (0 < num_threads)%nat ->
  spawn n num_threads = Ok (map (nth_task n num_threads) (seq 0 num_threads)).
Proof.
  intros Hw. unfold spawn, frames_per_thread.
  destruct (Nat.eqb_spec num_threads 0) as [->|_]; [lia|].
  cbn [mbind result_mbind result_bind]. unfold for_range.
  rewrite Nat.sub_0_r.
  now rewrite (for_loop_collect (nth_task n num_threads)).
Qed.

Lemma spawn_zero (n : nat) : spawn n 0 = DivisionByZero.
Proof. reflexivity. Qed.

Lemma task_indices_seq (t : Task) :
  task_indices t = seq (t_start t) (t_end t - t_start t).
Proof. unfold task_indices, for_range. now rewrite (for_loop_collect (fun i => i)), map_id. Qed.

Lemma chunk_bound (n w : nat) : (0 < w)%nat -> ((w - 1) * (n / w) <= n)%nat.
Proof.
  intros Hw. pose proof (Nat.Div0.mul_div_le n w).
  assert ((w - 1) * (n / w) <= w * (n / w))%nat by (apply Nat.mul_le_mono_r; lia).
  lia.
Qed.

Lemma nth_task_range (n w i : nat) :
  (0 < w)%nat -> (i < w)%nat ->
  (t_start (nth_task n w i) <= t_end (nth_task n w i) <= n)%nat.
Proof.
  intros Hw Hi. pose proof (chunk_bound n w Hw) as Hb. unfold nth_task. simpl.
  destruct (Nat.eqb_spec i (w - 1)) as [->|Hne].
  - lia.
  - assert ((i + 1) * (n / w) <= (w - 1) * (n / w))%nat by (apply Nat.mul_le_mono_r; lia).
    assert (i * (n / w) <= (i + 1) * (n / w))%nat by (apply Nat.mul_le_mono_r; lia).
    lia.
Qed.

Lemma nth_task_cover (n w j : nat) :
  (0 < w)%nat -> (j < n)%nat ->
  exists i, (i < w)%nat /\
            (t_start (nth_task n w i) <= j < t_end (nth_task n w i))%nat.
Proof.
  intros Hw Hj. set (c := (n / w)%nat).
  destruct (decide (c = 0 \/ w - 1 <= j / c)%nat) as [Hlast|Hmid].
  - exists (w - 1)%nat. split; [lia|]. unfold nth_task. simpl.
    rewrite Nat.eqb_refl. fold c. split; [|lia].
    destruct Hlast as [->|Hq]; [lia|].
    destruct (decide (c = 0)) as [->|Hc]; [lia|].
    pose proof (Nat.Div0.mul_div_le j c).
    assert ((w - 1) * c <= (j / c) * c)%nat by (apply Nat.mul_le_mono_r; lia).
    lia.
  - assert (Hc : c <> 0%nat) by lia.
    exists (j / c)%nat. split; [lia|]. unfold nth_task. simpl. fold c.
    destruct (Nat.eqb_spec (j / c) (w - 1)) as [He|_]; [lia|].
    pose proof (Nat.Div0.mul_div_le j c).
    pose proof (Nat.mul_succ_div_gt j c Hc). lia.
Qed.

Lemma nth_task_disjoint (n w i i' j : nat) :
  (i < i')%nat -> (i' < w)%nat ->
  in_task j (nth_task n w i) -> in_task j (nth_task n w i') -> False.
Proof.
  unfold in_task, nth_task. cbn [t_start t_end]. intros Hlt Hw [_ Hend] [Hstart _].
  destruct (Nat.eqb_spec i (w - 1)) as [He|_]; [lia|].
  assert ((i + 1) * (n / w) <= i' * (n / w))%nat by (apply Nat.mul_le_mono_r; lia).
  lia.
Qed.

Lemma nth_task_unique (n w i i' j : nat) :
  (i < w)%nat -> (i' < w)%nat ->
  in_task j (nth_task n w i) -> in_task j (nth_task n w i') -> i = i'.
Proof.
  intros Hi Hi' Hj Hj'.
  destruct (Nat.lt_trichotomy i i') as [Hlt|[Heq|Hgt]]; [|assumption|].
  - destruct (nth_task_disjoint n w i i' j Hlt Hi' Hj Hj').
  - destruct (nth_task_disjoint n w i' i j Hgt Hi Hj' Hj).
Qed.

(* ===================================================================== *)
(** * Binary32: rounding, order and the guard of the progress bar *)
(* ===================================================================== *)

Section Binary32.
Local Open Scope Z_scope.

Lemma shr_1_m (r : shr_record) : 0 <= shr_m r -> shr_m (shr_1 r) = shr_m r / 2.
Proof.
  destruct r as [m r s]. cbn [shr_m]. intros Hm.
  destruct m as [|[p|p|]|p]; cbn [shr_1 shr_m]; try lia; try reflexivity.
  - rewrite Pos2Z.inj_xI. apply (Z.div_unique _ _ _ 1); lia.
  - rewrite Pos2Z.inj_xO. apply (Z.div_unique _ _ _ 0); lia.
Qed.

Lemma pow2_xI (p : positive) : 2 ^ Z.pos p~1 = 2 * (2 ^ Z.pos p * 2 ^ Z.pos p).
Proof.
  change (Z.pos p~1) with (Z.succ (2 * Z.pos p)).
  rewrite Z.pow_succ_r by lia. now rewrite Z.pow_twice_r.
Qed.

Lemma pow2_xO (p : positive) : 2 ^ Z.pos p~0 = 2 ^ Z.pos p * 2 ^ Z.pos p.
Proof. change (Z.pos p~0) with (2 * Z.pos p). apply Z.pow_twice_r. Qed.

Lemma iter_pos_shr_1 (p : positive) :
  forall r, 0 <= shr_m r ->
            shr_m (SpecFloat.iter_pos shr_1 p r) = shr_m r / 2 ^ Z.pos p.
Proof.
  induction p as [p IH|p IH|]; intros r Hr; cbn [SpecFloat.iter_pos].
  - assert (H1 : 0 <= shr_m (shr_1 r)) by (rewrite shr_1_m by assumption; apply Z.div_pos; lia).
    assert (H2 : 0 <= shr_m (SpecFloat.iter_pos shr_1 p (shr_1 r)))
      by (rewrite IH by assumption; apply Z.div_pos; lia).
    rewrite IH, IH, shr_1_m by assumption.
    rewrite !Z.div_div by lia. now rewrite pow2_xI.
  - assert (H2 : 0 <= shr_m (SpecFloat.iter_pos shr_1 p r))
      by (rewrite IH by assumption; apply Z.div_pos; lia).
    rewrite IH, IH by assumption.
    rewrite !Z.div_div by lia. now rewrite pow2_xO.
  - rewrite shr_1_m by assumption. reflexivity.
Qed.

Lemma digits2_pos_size (p : positive) : digits2_pos p = Pos.size p.
Proof. induction p as [p IH|p IH|]; cbn [digits2_pos Pos.size]; congruence. Qed.

Lemma Zdigits2_log2 (m : Z) : 0 < m -> Zdigits2 m = Z.log2 m + 1.
Proof.
  destruct m as [|p|p]; try lia. intros _. cbn [Zdigits2]. rewrite digits2_pos_size.
  destruct p as [p|p|]; cbn [Pos.size Z.log2]; lia.
Qed.

Lemma Zdigits2_bounds (m : Z) : 0 < m -> 2 ^ (Zdigits2 m - 1) <= m < 2 ^ Zdigits2 m.
Proof.
  intros Hm. rewrite Zdigits2_log2 by assumption.
  pose proof (Z.log2_spec m Hm) as H. unfold Z.succ in H.
  now replace (Z.log2 m + 1 - 1) with (Z.log2 m) by lia.
Qed.

Lemma Zdigits2_le (m n : Z) : 0 <= n -> 0 <= m < 2 ^ n -> Zdigits2 m <= n.
Proof.
  intros Hn [Hm Hlt]. destruct (Z.eq_dec m 0) as [->|Hne]; [exact Hn|].
  rewrite Zdigits2_log2 by lia. apply Z.log2_lt_pow2 in Hlt; lia.
Qed.

Lemma f32_fexp (e : Z) : fexp f32_prec f32_emax e = Z.max (e - 24) (-149).
Proof. reflexivity. Qed.

Lemma shr_record_of_loc_m (m : Z) (l : location) : shr_m (shr_record_of_loc m l) = m.
Proof. destruct l as [|[]]; reflexivity. Qed.

(** What [shr_fexp] leaves of a mantissa that is not negative. *)
Lemma shr_fexp_spec (m e : Z) (l : location) :
  0 <= m ->
  let k := fexp f32_prec f32_emax (Zdigits2 m + e) - e in
  (k <= 0 /\ shr_m (fst (shr_fexp f32_prec f32_emax m e l)) = m
          /\ snd (shr_fexp f32_prec f32_emax m e l) = e)
  \/ (0 < k /\ shr_m (fst (shr_fexp f32_prec f32_emax m e l)) = m / 2 ^ k
            /\ snd (shr_fexp f32_prec f32_emax m e l) = e + k).
Proof.
  intros Hm k. unfold shr_fexp. fold k. destruct k as [|p|p] eqn:Hk.
  - left. cbn [shr fst snd]. rewrite shr_record_of_loc_m. lia.
  - right. cbn [shr fst snd]. rewrite iter_pos_shr_1, shr_record_of_loc_m
      by (rewrite shr_record_of_loc_m; assumption). lia.
  - left. cbn [shr fst snd]. rewrite shr_record_of_loc_m. lia.
Qed.

Lemma shr_fexp_nonneg (m e : Z) (l : location) :
  0 <= m -> 0 <= shr_m (fst (shr_fexp f32_prec f32_emax m e l)) <= m.
Proof.
  intros Hm. destruct (shr_fexp_spec m e l Hm) as [(_ & -> & _)|(Hk & -> & _)]; [lia|].
  split; [apply Z.div_pos; lia|].
  apply Z.div_le_upper_bound; [lia|]. 
  assert (1 <= 2 ^ (fexp f32_prec f32_emax (Zdigits2 m + e) - e)) by (apply Z.pow_le_mono_r with (b := 0) (c := _) (a := 2); lia).
  nia.
Qed.

(** A positive mantissa stays positive as long as the exponent is not below
    the least one. *)
Lemma shr_fexp_pos (m e : Z) (l : location) :
  0 < m -> -149 <= e ->
  0 < shr_m (fst (shr_fexp f32_prec f32_emax m e l))
  /\ -149 <= snd (shr_fexp f32_prec f32_emax m e l).
Proof.
  intros Hm He.
  destruct (shr_fexp_spec m e l ltac:(lia)) as [(_ & -> & ->)|(Hk & -> & ->)]; [lia|].
  rewrite f32_fexp in *. split; [|lia].
  assert (Hd : fexp f32_prec f32_emax (Zdigits2 m + e) - e = Zdigits2 m - 24)
    by (rewrite f32_fexp; lia).
  rewrite f32_fexp in Hd. rewrite Hd.
  pose proof (Zdigits2_bounds m Hm) as [Hlo _].
  apply Z.lt_le_trans with (2 ^ 23); [reflexivity|].
  apply Z.div_le_lower_bound; [lia|].
  rewrite <- Z.pow_add_r by lia.
  now replace (Zdigits2 m - 24 + 23) with (Zdigits2 m - 1) by lia.
Qed.

(** The exponent that comes out, for a mantissa below [2 ^ n]. *)
Lemma shr_fexp_exponent (m e n : Z) (l : location) :
  0 <= n -> 0 <= m < 2 ^ n ->
  snd (shr_fexp f32_prec f32_emax m e l) <= Z.max e (Z.max (n + e - 24) (-149)).
Proof.
  intros Hn Hm. pose proof (Zdigits2_le m n Hn Hm) as Hd.
  destruct (shr_fexp_spec m e l ltac:(lia)) as [(_ & _ & ->)|(Hk & _ & ->)]; [lia|].
  rewrite f32_fexp in *. lia.
Qed.

Lemma round_nearest_even_bounds (m : Z) (l : location) :
  m <= round_nearest_even m l <= m + 1.
Proof.
  destruct l as [|[]]; cbn [round_nearest_even]; try lia.
  destruct (Z.even m); lia.
Qed.

Lemma binary_round_aux_rounded (s : bool) (m e : Z) (l : location) :
  0 <= m -> rounded s (binary_round_aux f32_prec f32_emax s m e l).
Proof.
  intros Hm. unfold binary_round_aux.
  pose proof (shr_fexp_nonneg m e l Hm) as H1.
  destruct (shr_fexp f32_prec f32_emax m e l) as [r1 e1]. cbn [fst] in H1.
  pose proof (round_nearest_even_bounds (shr_m r1) (loc_of_shr_record r1)) as H2.
  pose proof (shr_fexp_nonneg (round_nearest_even (shr_m r1) (loc_of_shr_record r1))
                e1 loc_Exact ltac:(lia)) as H3.
  destruct (shr_fexp f32_prec f32_emax _ e1 loc_Exact) as [r2 e2]. cbn [fst] in H3.
  destruct (shr_m r2) as [|p|p]; [constructor| |lia].
  destruct (e2 <=? f32_emax - f32_prec); constructor.
Qed.

(** A positive mantissa at an exponent that is not below the least one does
    not round to zero. *)
Lemma binary_round_aux_pos (s : bool) (m e : Z) (l : location) :
  0 < m -> -149 <= e ->
  (exists m' e', binary_round_aux f32_prec f32_emax s m e l = S754_finite s m' e')
  \/ binary_round_aux f32_prec f32_emax s m e l = S754_infinity s.
Proof.
  intros Hm He. unfold binary_round_aux.
  pose proof (shr_fexp_pos m e l Hm He) as [H1 He1].
  destruct (shr_fexp f32_prec f32_emax m e l) as [r1 e1]. cbn [fst snd] in H1, He1.
  pose proof (round_nearest_even_bounds (shr_m r1) (loc_of_shr_record r1)) as H2.
  pose proof (shr_fexp_pos (round_nearest_even (shr_m r1) (loc_of_shr_record r1))
                e1 loc_Exact ltac:(lia) He1) as [H3 _].
  destruct (shr_fexp f32_prec f32_emax _ e1 loc_Exact) as [r2 e2]. cbn [fst] in H3.
  destruct (shr_m r2) as [|p|p]; [lia| |lia].
  destruct (e2 <=? f32_emax - f32_prec); [left; eauto|now right].
Qed.

(** A mantissa below [2 ^ 56] at an exponent that is not positive does not
    overflow. *)
Lemma binary_round_aux_no_overflow (s : bool) (m e : Z) (l : location) :
  0 <= m < 2 ^ 56 -> e <= 0 ->
  binary_round_aux f32_prec f32_emax s m e l <> S754_infinity s.
Proof.
  intros Hm He. unfold binary_round_aux.
  pose proof (shr_fexp_nonneg m e l ltac:(lia)) as H1.
  pose proof (shr_fexp_exponent m e 56 l ltac:(lia) Hm) as He1.
  destruct (shr_fexp f32_prec f32_emax m e l) as [r1 e1]. cbn [fst snd] in H1, He1.
  pose proof (round_nearest_even_bounds (shr_m r1) (loc_of_shr_record r1)) as H2.
  assert (Hm2 : 0 <= round_nearest_even (shr_m r1) (loc_of_shr_record r1) < 2 ^ 57).
  { split; [lia|]. apply Z.le_lt_trans with (2 ^ 56); [lia|reflexivity]. }
  pose proof (shr_fexp_exponent _ e1 57 loc_Exact ltac:(lia) Hm2) as He2.
  destruct (shr_fexp f32_prec f32_emax _ e1 loc_Exact) as [r2 e2]. cbn [snd] in He2.
  destruct (shr_m r2) as [|p|p]; try discriminate.
  destruct (Z.leb_spec e2 (f32_emax - f32_prec)) as [_|Hgt]; [discriminate|].
  unfold f32_emax, f32_prec in Hgt. lia.
Qed.

Lemma iter_xO (m d : positive) : Z.pos (Pos.iter xO m d) = Z.pos m * 2 ^ Z.pos d.
Proof.
  rewrite <- Z.shiftl_mul_pow2 by lia. cbn [Z.shiftl].
  now rewrite (Pos.iter_swap_gen _ _ Z.pos xO (Z.mul 2)).
Qed.

(** [shl_align] lowers the exponent to [ex'] when that is less, scaling the
    mantissa so that the value is kept. *)
Lemma shl_align_spec (mx : positive) (ex ex' : Z) :
  snd (shl_align mx ex ex') = Z.min ex ex'
  /\ Z.pos (fst (shl_align mx ex ex')) = Z.pos mx * 2 ^ (ex - Z.min ex ex').
Proof.
  unfold shl_align. destruct (ex' - ex) as [|d|d] eqn:Hd; cbn [fst snd].
  - rewrite Z.min_l by lia. rewrite Z.sub_diag. lia.
  - rewrite Z.min_l by lia. rewrite Z.sub_diag. lia.
  - rewrite Z.min_r by lia. split; [reflexivity|].
    rewrite iter_xO. f_equal. f_equal. lia.
Qed.

(** [int] to [float]: a positive integer of the 32-bit range becomes a
    finite, positive number. *)
Lemma binary_round_int (s : bool) (m : positive) :
  Z.pos m <= 2 ^ 31 ->
  exists m' e', binary_round f32_prec f32_emax s m 0 = S754_finite s m' e'.
Proof.
  intros Hm. unfold binary_round.
  pose proof (shl_align_spec m 0 (fexp f32_prec f32_emax (Z.pos (digits2_pos m) + 0)))
    as [He Hmz].
  destruct (shl_align m 0 _) as [mz ez]. cbn [fst snd] in He, Hmz.
  rewrite f32_fexp in He, Hmz.
  assert (Hd : 0 < Z.pos (digits2_pos m)) by lia.
  assert (Hez : -23 <= ez <= 0) by lia.
  assert (Hpow : 1 <= 2 ^ (0 - ez) <= 2 ^ 23).
  { split; [apply (Z.pow_le_mono_r 2 0); lia|apply Z.pow_le_mono_r; lia]. }
  rewrite <- He in Hmz.
  assert (Hbound : 0 < Z.pos mz < 2 ^ 56).
  { split; [lia|]. rewrite Hmz. apply Z.le_lt_trans with (2 ^ 31 * 2 ^ 23); [nia|reflexivity]. }
  destruct (binary_round_aux_pos s (Z.pos mz) ez loc_Exact) as [Hfin|Hinf]; [lia|lia|exact Hfin|].
  exfalso. revert Hinf. apply binary_round_aux_no_overflow; lia.
Qed.

Lemma f32_of_int_finite (z : Z) :
  z <> 0 -> - 2 ^ 31 <= z <= 2 ^ 31 ->
  exists m e, f32_of_int z = S754_finite (z <? 0) m e.
Proof.
  intros Hz Hr. unfold f32_of_int, binary_normalize. destruct z as [|p|p]; [lia| |].
  - apply binary_round_int. lia.
  - apply binary_round_int. lia.
Qed.

Lemma binary_round_rounded (s : bool) (m : positive) (e : Z) :
  rounded s (binary_round f32_prec f32_emax s m e).
Proof.
  unfold binary_round. destruct (shl_align _ _ _) as [mz ez].
  apply binary_round_aux_rounded. lia.
Qed.

Lemma f32_of_int_rounded (z : Z) : rounded (z <? 0) (f32_of_int z).
Proof.
  unfold f32_of_int, binary_normalize.
  destruct z as [|p|p]; [constructor| |]; apply binary_round_rounded.
Qed.

Lemma f32_le_refl (x : spec_float) : is_nan x = false -> f32_le x x.
Proof. intros H. repeat split; try assumption. right. split; [reflexivity|apply Qle_refl]. Qed.

Lemma f32_le_trans (x y z : spec_float) : f32_le x y -> f32_le y z -> f32_le x z.
Proof.
  intros (Hx & _ & [Hxy|[Hxy Vxy]]) (_ & Hz & [Hyz|[Hyz Vyz]]);
    split; try assumption; split; try assumption.
  - left. lia.
  - left. lia.
  - left. lia.
  - right. split; [lia|]. eapply Qle_trans; eassumption.
Qed.

Lemma f32_lt_le (x y : spec_float) : f32_lt x y -> f32_le x y.
Proof.
  intros (Hx & Hy & [H|[H V]]); repeat split; try assumption; [now left|].
  right. split; [assumption|]. now apply Qlt_le_weak.
Qed.

Lemma f32_le_not_lt (x y : spec_float) : f32_le x y -> ~ f32_lt y x.
Proof.
  intros (_ & _ & [H|[H V]]) (_ & _ & [H'|[H' V']]); try lia.
  exact (Qlt_not_le _ _ V' V).
Qed.

Lemma f32_threshold_eq : f32_threshold = S754_finite false 13421773 (-28).
Proof. vm_compute. reflexivity. Qed.

Lemma rounded_negative_below (x : spec_float) :
  rounded true x -> SFltb x f32_threshold = true.
Proof. rewrite f32_threshold_eq. destruct 1; reflexivity. Qed.

Lemma pow2_pos (e : Z) : (0 < 2 ^ e)%Q.
Proof. apply Qpower_0_lt. reflexivity. Qed.

(** The value of a number whose mantissa has been aligned to [ez]. *)
Lemma aligned_value (s : bool) (m : positive) (e ez : Z) :
  ez <= e ->
  (inject_Z (cond_Zopp s (Z.pos (fst (shl_align m e ez)))) * 2 ^ ez
   == f32_value (S754_finite s m e))%Q.
Proof.
  intros Hle. pose proof (shl_align_spec m e ez) as [_ Hm].
  rewrite Z.min_r in Hm by assumption. cbn [f32_value].
  assert (Hs : cond_Zopp s (Z.pos (fst (shl_align m e ez)))
               = cond_Zopp s (Z.pos m) * 2 ^ (e - ez))
    by (rewrite Hm; destruct s; cbn [cond_Zopp]; lia).
  rewrite Hs, inject_Z_mult, Zpower_Qpower by lia.
  rewrite <- Qmult_assoc, <- Qpower_plus by discriminate.
  now replace (e - ez + ez) with e by lia.
Qed.

(** The guard of [display_progress] on two finite numbers: it lets through
    only a number that is above the other one. *)
Lemma guard_finite (sx sy : bool) (mx my : positive) (ex ey : Z) :
  SFltb (f32_sub (S754_finite sx mx ex) (S754_finite sy my ey)) f32_threshold = false ->
  (f32_value (S754_finite sy my ey) < f32_value (S754_finite sx mx ex))%Q.
Proof.
  unfold f32_sub. cbn [SFsub]. set (ez := Z.min ex ey).
  set (X := cond_Zopp sx (Z.pos (fst (shl_align mx ex ez)))).
  set (Y := cond_Zopp sy (Z.pos (fst (shl_align my ey ez)))).
  intros Hguard.
  assert (HD : 0 < X - Y).
  { destruct (X - Y) as [|d|d] eqn:HD; [| lia |].
    - cbn [binary_normalize] in Hguard. rewrite f32_threshold_eq in Hguard. discriminate.
    - cbn [binary_normalize] in Hguard. rewrite rounded_negative_below in Hguard; [discriminate|].
      apply binary_round_rounded. }
  rewrite <- (aligned_value sx mx ex ez), <- (aligned_value sy my ey ez) by lia.
  fold X Y. apply Qmult_lt_compat_r; [apply pow2_pos|].
  rewrite <- Zlt_Qlt. lia.
Qed.

Lemma f32_value_sign (s : bool) (m : positive) (e : Z) :
  if s then (f32_value (S754_finite s m e) < 0)%Q else (0 < f32_value (S754_finite s m e))%Q.
Proof.
  pose proof (pow2_pos e) as Hp. cbn [f32_value].
  destruct s; cbn [cond_Zopp].
  - pose proof (Qmult_lt_compat_r (inject_Z (- Z.pos m)) 0 (2 ^ e) Hp eq_refl) as H.
    now rewrite Qmult_0_l in H.
  - pose proof (Qmult_lt_compat_r 0 (inject_Z (Z.pos m)) (2 ^ e) Hp eq_refl) as H.
    now rewrite Qmult_0_l in H.
Qed.

(** The guard on any two numbers: what passes is above the last report,
    or both are the same infinity (their difference is NaN). *)
Lemma guard_passed (progress last : spec_float) :
  is_nan progress = false -> is_nan last = false ->
  SFltb (f32_sub progress last) f32_threshold = false ->
  f32_lt last progress
  \/ (exists s, progress = S754_infinity s /\ last = S754_infinity s).
Proof.
  intros Hp Hl Hguard.
  destruct progress as [sp|sp| |sp mp ep], last as [sl|sl| |sl ml el];
    try discriminate; rewrite ?f32_threshold_eq in Hguard.
  - destruct sp, sl; discriminate.
  - left. destruct sl; [|discriminate]. repeat split. now left.
  - left. destruct sl; [|discriminate].
    repeat split. right. split; [reflexivity|].
    apply (f32_value_sign true ml el).
  - left. destruct sp; [discriminate|]. repeat split. now left.
  - destruct sp, sl; try discriminate.
    + right. now exists true.
    + left. repeat split. now left.
    + right. now exists false.
  - left. destruct sp; [discriminate|]. repeat split. now left.
  - left. destruct sp; [discriminate|].
    repeat split. right. split; [reflexivity|].
    apply (f32_value_sign false mp ep).
  - left. destruct sl; [|discriminate]. repeat split. now left.
  - left. rewrite <- f32_threshold_eq in Hguard. repeat split.
    right. split; [reflexivity|]. now apply guard_finite.
Qed.

Lemma shr_1_r (r : shr_record) : 0 <= shr_m r -> shr_r (shr_1 r) = Z.odd (shr_m r).
Proof.
  destruct r as [m r s]. cbn [shr_m]. intros Hm.
  destruct m as [|[p|p|]|p]; cbn [shr_1 shr_r]; try reflexivity. lia.
Qed.

(** The round bit after a shift is the last bit shifted out. *)
Lemma iter_pos_shr_1_r (p : positive) :
  forall r, 0 <= shr_m r ->
            shr_r (SpecFloat.iter_pos shr_1 p r) = Z.testbit (shr_m r) (Z.pos p - 1).
Proof.
  induction p as [p IH|p IH|]; intros r Hr; cbn [SpecFloat.iter_pos].
  - assert (H1 : 0 <= shr_m (shr_1 r)) by (rewrite shr_1_m by assumption; apply Z.div_pos; lia).
    assert (H2 : 0 <= shr_m (SpecFloat.iter_pos shr_1 p (shr_1 r)))
      by (rewrite iter_pos_shr_1 by assumption; apply Z.div_pos; lia).
    rewrite IH, iter_pos_shr_1, shr_1_m by assumption.
    rewrite Z.div_pow2_bits by lia.
    change (shr_m r / 2) with (shr_m r / 2 ^ 1). rewrite Z.div_pow2_bits by lia.
    f_equal. lia.
  - assert (H2 : 0 <= shr_m (SpecFloat.iter_pos shr_1 p r))
      by (rewrite iter_pos_shr_1 by assumption; apply Z.div_pos; lia).
    rewrite IH, iter_pos_shr_1 by assumption.
    rewrite Z.div_pow2_bits by lia. f_equal. lia.
  - rewrite shr_1_r by assumption. now rewrite Z.bit0_odd.
Qed.

Lemma testbit_half (m k : Z) :
  0 <= m -> 0 < k -> Z.testbit m (k - 1) = true ->
  (2 * (m / 2 ^ k) + 1) * 2 ^ k <= 2 * m.
Proof.
  intros Hm Hk Hbit. apply Z.testbit_true in Hbit; [|lia].
  assert (Hpow : 2 ^ k = 2 * 2 ^ (k - 1)).
  { replace k with (Z.succ (k - 1)) at 1 by lia. apply Z.pow_succ_r. lia. }
  assert (Hp : 0 < 2 ^ (k - 1)) by (apply Z.pow_pos_nonneg; lia).
  assert (Hq : m / 2 ^ k = m / 2 ^ (k - 1) / 2) by (rewrite Hpow, Z.mul_comm, Z.div_div; lia).
  pose proof (Z.div_mod (m / 2 ^ (k - 1)) 2 ltac:(lia)) as Hd.
  pose proof (Z.mul_div_le m (2 ^ (k - 1)) Hp) as Hle.
  rewrite Hq, Hpow. nia.
Qed.

(** Rounding after the first shift takes away less than half a unit of the
    new exponent. *)
Lemma shr_fexp_round (m e : Z) :
  0 <= m ->
  let r1 := fst (shr_fexp f32_prec f32_emax m e loc_Exact) in
  let e1 := snd (shr_fexp f32_prec f32_emax m e loc_Exact) in
  e <= e1
  /\ shr_m r1 <= round_nearest_even (shr_m r1) (loc_of_shr_record r1)
  /\ (2 * round_nearest_even (shr_m r1) (loc_of_shr_record r1) - 1) * 2 ^ (e1 - e) <= 2 * m.
Proof.
  intros Hm r1 e1. subst r1 e1.
  pose proof (round_nearest_even_bounds
                (shr_m (fst (shr_fexp f32_prec f32_emax m e loc_Exact)))
                (loc_of_shr_record (fst (shr_fexp f32_prec f32_emax m e loc_Exact)))) as Hb.
  split; [|split; [lia|]].
  - destruct (shr_fexp_spec m e loc_Exact Hm) as [(_ & _ & ->)|(Hk & _ & ->)]; lia.
  - unfold shr_fexp in *.
    destruct (fexp f32_prec f32_emax (Zdigits2 m + e) - e) as [|k|k] eqn:Hk;
      cbn [shr fst snd shr_record_of_loc loc_of_shr_record round_nearest_even shr_m] in *.
    + rewrite Z.sub_diag. lia.
    + replace (e + Z.pos k - e) with (Z.pos k) by lia.
      set (r0 := {| shr_m := m; shr_r := false; shr_s := false |}) in *.
      pose proof (iter_pos_shr_1 k r0 Hm) as Hval.
      pose proof (iter_pos_shr_1_r k r0 Hm) as Hbit.
      cbn [shr_m r0] in Hval, Hbit. fold r0 in Hval, Hbit.
      destruct (SpecFloat.iter_pos shr_1 k r0) as [m1 rb sb].
      cbn [shr_m shr_r] in *. subst m1.
      assert (Hfloor : m / 2 ^ Z.pos k * 2 ^ Z.pos k <= m)
        by (rewrite Z.mul_comm; apply Z.mul_div_le; lia).
      assert (Hp : 0 < 2 ^ Z.pos k) by lia.
      destruct rb.
      * pose proof (testbit_half m (Z.pos k) Hm ltac:(lia) (eq_sym Hbit)). nia.
      * assert (Hexact : round_nearest_even (m / 2 ^ Z.pos k)
                           (loc_of_shr_record
                              {| shr_m := m / 2 ^ Z.pos k; shr_r := false; shr_s := sb |})
                         = m / 2 ^ Z.pos k) by (destruct sb; reflexivity).
        rewrite Hexact. nia.
    + rewrite Z.sub_diag. lia.
Qed.

Lemma Zdigits2_mul_pow2 (a j : Z) : 0 < a -> 0 <= j -> Zdigits2 (a * 2 ^ j) = Zdigits2 a + j.
Proof.
  intros Ha Hj. assert (0 < 2 ^ j) by (apply Z.pow_pos_nonneg; lia).
  rewrite !Zdigits2_log2 by nia. rewrite Z.log2_mul_pow2 by lia. lia.
Qed.

(** A shift to the exponent of the format leaves 24 digits, unless the
    exponent is the least one. *)
Lemma shr_fexp_norm (m e : Z) (l : location) :
  0 < m -> e <= fexp f32_prec f32_emax (Zdigits2 m + e) ->
  snd (shr_fexp f32_prec f32_emax m e l) = fexp f32_prec f32_emax (Zdigits2 m + e)
  /\ (-149 < fexp f32_prec f32_emax (Zdigits2 m + e) ->
      2 ^ 23 <= shr_m (fst (shr_fexp f32_prec f32_emax m e l))).
Proof.
  intros Hm He. pose proof (Zdigits2_bounds m Hm) as [Hlo _].
  destruct (shr_fexp_spec m e l ltac:(lia)) as [(Hk & -> & ->)|(Hk & -> & ->)].
  - split; [lia|]. intros HF. rewrite f32_fexp in *.
    replace (Zdigits2 m - 1) with 23 in Hlo by lia. exact Hlo.
  - split; [lia|]. intros HF. rewrite f32_fexp in *.
    replace (Z.max (Zdigits2 m + e - 24) (-149) - e) with (Zdigits2 m - 24) by lia.
    apply Z.div_le_lower_bound; [apply Z.pow_pos_nonneg; lia|].
    rewrite <- Z.pow_add_r by lia.
    now replace (Zdigits2 m - 24 + 23) with (Zdigits2 m - 1) by lia.
Qed.

(** The second shift, after rounding: exact or a division by a power of 2. *)
Lemma shr_fexp_again (m e : Z) :
  0 <= m -> -149 <= e ->
  let r2 := fst (shr_fexp f32_prec f32_emax m e loc_Exact) in
  let e2 := snd (shr_fexp f32_prec f32_emax m e loc_Exact) in
  e <= e2
  /\ 0 <= shr_m r2
  /\ (2 * shr_m r2 - 1) * 2 ^ (e2 - e) <= 2 * m - 1
  /\ ((-149 < e -> 2 ^ 23 <= m) -> -149 < e2 -> 2 ^ 23 <= shr_m r2).
Proof.
  intros Hm He r2 e2. subst r2 e2.
  destruct (shr_fexp_spec m e loc_Exact Hm) as [(Hk & -> & ->)|(Hk & -> & ->)].
  - rewrite Z.sub_diag. change (2 ^ 0) with 1. split; [lia|]. split; [lia|]. split; [lia|].
    intros Hn He2. now apply Hn.
  - set (k := fexp f32_prec f32_emax (Zdigits2 m + e) - e) in *.
    replace (e + k - e) with k by lia.
    assert (Hp : 2 <= 2 ^ k) by (apply (Z.pow_le_mono_r 2 1 k); lia).
    pose proof (Z.mul_div_le m (2 ^ k) ltac:(lia)) as Hfloor.
    assert (Hq : 0 <= m / 2 ^ k) by (apply Z.div_pos; lia).
    split; [lia|]. split; [exact Hq|]. split; [nia|].
    intros _ He2.
    assert (Hm0 : 0 < m).
    { destruct (Z.eq_dec m 0) as [->|]; [|lia]. subst k. rewrite f32_fexp in Hk.
      cbn [Zdigits2] in Hk. lia. }
    pose proof (Zdigits2_bounds m Hm0) as [Hlo _].
    subst k. rewrite f32_fexp in *.
    replace (Z.max (Zdigits2 m + e - 24) (-149) - e) with (Zdigits2 m - 24) by lia.
    apply Z.div_le_lower_bound; [apply Z.pow_pos_nonneg; lia|].
    rewrite <- Z.pow_add_r by lia.
    now replace (Zdigits2 m - 24 + 23) with (Zdigits2 m - 1) by lia.
Qed.

Lemma pow2_inject (k : Z) : 0 <= k -> (2 ^ k == inject_Z (2 ^ k))%Q.
Proof. intros Hk. now rewrite Zpower_Qpower by assumption. Qed.

Lemma Qscale_down (A B k e : Z) :
  0 <= k -> A * 2 ^ k <= B -> (inject_Z A * 2 ^ (e + k) <= inject_Z B * 2 ^ e)%Q.
Proof.
  intros Hk Hle. rewrite Qpower_plus by discriminate.
  rewrite (pow2_inject k Hk).
  rewrite (Qmult_comm (2 ^ e)), Qmult_assoc, <- inject_Z_mult.
  apply Qmult_le_compat_r; [now rewrite <- Zle_Qle|apply Qlt_le_weak, pow2_pos].
Qed.

Lemma Qscale_up (A B k e : Z) :
  0 <= k -> A <= B * 2 ^ k -> (inject_Z A * 2 ^ e <= inject_Z B * 2 ^ (e + k))%Q.
Proof.
  intros Hk Hle. rewrite Qpower_plus by discriminate.
  rewrite (pow2_inject k Hk).
  rewrite (Qmult_comm (2 ^ e)), Qmult_assoc, <- inject_Z_mult.
  apply Qmult_le_compat_r; [now rewrite <- Zle_Qle|apply Qlt_le_weak, pow2_pos].
Qed.

(** A positive difference that rounds to [0.05f] or more is at least
    [0.05f] less half a unit in the last place: 26843545 / 2^29. *)
Lemma binary_round_gap (d : positive) (ez : Z) :
  SFltb (binary_round f32_prec f32_emax false d ez) f32_threshold = false ->
  (inject_Z 26843545 * 2 ^ (-28) <= inject_Z (2 * Z.pos d) * 2 ^ ez)%Q.
Proof.
  unfold binary_round.
  set (F0 := fexp f32_prec f32_emax (Z.pos (digits2_pos d) + ez)).
  pose proof (shl_align_spec d ez F0) as [He0 Hmz].
  destruct (shl_align d ez F0) as [mz e0]. cbn [fst snd] in He0, Hmz.
  assert (Hdig : Zdigits2 (Z.pos mz) + e0 = Z.pos (digits2_pos d) + ez).
  { rewrite Hmz, <- He0, Zdigits2_mul_pow2 by lia. cbn [Zdigits2]. lia. }
  assert (HF0 : -149 <= F0) by (subst F0; rewrite f32_fexp; lia).
  unfold binary_round_aux.
  pose proof (shr_fexp_round (Z.pos mz) e0 ltac:(lia)) as (_ & Hm12 & Hround).
  pose proof (shr_fexp_norm (Z.pos mz) e0 loc_Exact ltac:(lia)) as Hnorm.
  rewrite Hdig in Hnorm. fold F0 in Hnorm.
  destruct Hnorm as [He1 Hn1]; [lia|].
  pose proof (shr_fexp_nonneg (Z.pos mz) e0 loc_Exact ltac:(lia)) as [Hm1 _].
  destruct (shr_fexp f32_prec f32_emax (Z.pos mz) e0 loc_Exact) as [r1 e1].
  cbn [fst snd] in *. subst e1.
  set (m2 := round_nearest_even (shr_m r1) (loc_of_shr_record r1)) in *.
  pose proof (shr_fexp_again m2 F0 ltac:(lia) HF0) as (He2 & Hm3 & Hagain & Hn2).
  destruct (shr_fexp f32_prec f32_emax m2 F0 loc_Exact) as [r2 e2].
  cbn [fst snd] in *.
  assert (Hn3 : -149 < e2 -> 2 ^ 23 <= shr_m r2) by (apply Hn2; intros; lia).
  intros Hguard.
  assert (Hbound : 26843545 <= (2 * shr_m r2 - 1) * 2 ^ (e2 + 28) /\ -28 <= e2).
  { rewrite f32_threshold_eq in Hguard.
    destruct (shr_m r2) as [|m3|m3] eqn:Hm3'; [discriminate| |lia].
    assert (Hcases : (e2 = -28 /\ 13421773 <= Z.pos m3) \/ -28 < e2).
    { destruct (e2 <=? f32_emax - f32_prec) eqn:Hov.
      - unfold SFltb, SFcompare in Hguard.
        destruct (Z.compare_spec e2 (-28)) as [Heq|Hlt|Hgt]; [|discriminate|lia].
        left. split; [assumption|].
        rewrite Pos.compare_cont_spec in Hguard.
        destruct (Pos.compare_spec m3 13421773) as [Heq'|Hlt'|Hgt']; try lia.
        cbn in Hguard. discriminate.
      - apply Z.leb_gt in Hov. unfold f32_emax, f32_prec in Hov. lia. }
    destruct Hcases as [[-> Hm]|Hgt].
    - change (2 ^ (-28 + 28)) with 1. lia.
    - specialize (Hn3 ltac:(lia)). change (2 ^ 23) with 8388608 in Hn3.
      assert (2 <= 2 ^ (e2 + 28)) by (apply (Z.pow_le_mono_r 2 1); lia).
      nia. }
  destruct Hbound as [Hbound He2'].
  apply Qle_trans with (inject_Z (2 * shr_m r2 - 1) * 2 ^ e2)%Q.
  { replace (2 ^ e2)%Q with (2 ^ (-28 + (e2 + 28)))%Q by (f_equal; lia).
    apply Qscale_up; [lia|exact Hbound]. }
  apply Qle_trans with (inject_Z (2 * m2 - 1) * 2 ^ F0)%Q.
  { replace (2 ^ e2)%Q with (2 ^ (F0 + (e2 - F0)))%Q by (f_equal; lia).
    apply Qscale_down; [lia|exact Hagain]. }
  apply Qle_trans with (inject_Z (2 * Z.pos mz) * 2 ^ e0)%Q.
  { replace (2 ^ F0)%Q with (2 ^ (e0 + (F0 - e0)))%Q by (f_equal; lia).
    apply Qscale_down; [lia|exact Hround]. }
  replace (2 ^ ez)%Q with (2 ^ (e0 + (ez - e0)))%Q by (f_equal; lia).
  apply Qscale_up; [lia|]. rewrite Hmz, <- He0. lia.
Qed.

(** The guard on two finite numbers, in numbers: what passes exceeds the
    last report by at least [f32_gap]. *)
Lemma guard_gap (sx sy : bool) (mx my : positive) (ex ey : Z) :
  SFltb (f32_sub (S754_finite sx mx ex) (S754_finite sy my ey)) f32_threshold = false ->
  (f32_gap <= f32_value (S754_finite sx mx ex) - f32_value (S754_finite sy my ey))%Q.
Proof.
  unfold f32_gap, f32_sub. cbn [SFsub]. set (ez := Z.min ex ey).
  set (X := cond_Zopp sx (Z.pos (fst (shl_align mx ex ez)))).
  set (Y := cond_Zopp sy (Z.pos (fst (shl_align my ey ez)))).
  intros Hguard.
  rewrite <- (aligned_value sx mx ex ez), <- (aligned_value sy my ey ez) by lia.
  fold X Y.
  destruct (X - Y) as [|d|d] eqn:HD.
  - cbn [binary_normalize] in Hguard. rewrite f32_threshold_eq in Hguard. discriminate.
  - cbn [binary_normalize] in Hguard. apply binary_round_gap in Hguard.
    assert (HX : (inject_Z X == inject_Z Y + inject_Z (Z.pos d))%Q)
      by (rewrite <- inject_Z_plus; apply inject_Z_injective; lia).
    rewrite inject_Z_mult in Hguard.
    assert (Hthr : (inject_Z 26843545 * 2 ^ (-28) == 26843545 # 268435456)%Q) by reflexivity.
    rewrite Hthr in Hguard. rewrite HX.
    change (inject_Z 2) with 2%Q in Hguard.
    set (v := (inject_Z (Z.pos d) * 2 ^ ez)%Q) in *.
    assert (Hv : ((inject_Z Y + inject_Z (Z.pos d)) * 2 ^ ez - inject_Z Y * 2 ^ ez == v)%Q)
      by (subst v; ring).
    rewrite Hv.
    assert (H2 : (2 * inject_Z (Z.pos d) * 2 ^ ez == 2 * v)%Q) by (subst v; ring).
    rewrite H2 in Hguard.
    assert (Hc : ((26843545 # 268435456) == 2 * (26843545 # 536870912))%Q) by reflexivity.
    rewrite Hc in Hguard. lra.
  - cbn [binary_normalize] in Hguard. rewrite rounded_negative_below in Hguard; [discriminate|].
    apply binary_round_rounded.
Qed.

Lemma rounded_number (s : bool) (x : spec_float) : rounded s x -> is_nan x = false.
Proof. now destruct 1. Qed.

Lemma f32_div_finite_rounded (sx sy : bool) (mx my : positive) (ex ey : Z) :
  rounded (xorb sx sy) (f32_div (S754_finite sx mx ex) (S754_finite sy my ey)).
Proof.
  unfold f32_div. cbn [SFdiv]. unfold SFdiv_core_binary.
  set (s := _ - _ - _).
  set (m' := match s with Z0 => Z.pos mx | Z.pos _ => Z.shiftl (Z.pos mx) s | Z.neg _ => 0 end).
  assert (Hm' : 0 <= m').
  { subst m'. destruct s; [lia| |lia]. apply Z.shiftl_nonneg. lia. }
  pose proof (Z.div_pos m' (Z.pos my) Hm' ltac:(lia)) as Hq.
  unfold Z.div in Hq. destruct (Z.div_eucl m' (Z.pos my)) as [q r].
  now apply binary_round_aux_rounded.
Qed.

(** A number divided by itself is exactly 1. *)
Lemma f32_div_same (s : bool) (m : positive) (e : Z) :
  f32_div (S754_finite s m e) (S754_finite s m e) = S754_finite false 8388608 (-23).
Proof.
  unfold f32_div. cbn [SFdiv]. unfold SFdiv_core_binary.
  rewrite !Z.sub_diag. change (Z.min _ 0) with (-24). change (0 - -24) with 24.
  cbv iota.
  assert (Hq : Z.div_eucl (Z.shiftl (Z.pos m) 24) (Z.pos m) = (2 ^ 24, 0)).
  { rewrite Z.shiftl_mul_pow2 by lia. rewrite Z.mul_comm.
    pose proof (Z.div_mul (2 ^ 24) (Z.pos m) ltac:(lia)) as Hd.
    pose proof (Z.mod_mul (2 ^ 24) (Z.pos m) ltac:(lia)) as Hr.
    unfold Z.div, Z.modulo in Hd, Hr.
    destruct (Z.div_eucl (2 ^ 24 * Z.pos m) (Z.pos m)) as [q r]. now subst. }
  rewrite Hq.
  assert (Hloc : new_location (Z.pos m) 0 = loc_Exact).
  { unfold new_location. destruct (Z.even _); reflexivity. }
  rewrite Hloc. now destruct s.
Qed.

Lemma binary_round_pos (s : bool) (m : positive) :
  (exists m' e', binary_round f32_prec f32_emax s m 0 = S754_finite s m' e')
  \/ binary_round f32_prec f32_emax s m 0 = S754_infinity s.
Proof.
  unfold binary_round.
  pose proof (shl_align_spec m 0 (fexp f32_prec f32_emax (Z.pos (digits2_pos m) + 0)))
    as [He _].
  destruct (shl_align m 0 _) as [mz ez]. cbn [snd] in He. rewrite f32_fexp in He.
  apply binary_round_aux_pos; lia.
Qed.

(** The fraction [static_cast<float>(completed_frames) / total_frames] is a
    number (possibly an infinity, when [total_frames] is 0) once a frame
    has been counted. *)
Lemma fraction_number (completed total_frames : Z) :
  0 < completed -> - 2 ^ 31 <= total_frames <= 2 ^ 31 ->
  is_nan (fraction completed total_frames) = false.
Proof.
  intros Hc Ht. unfold fraction.
  assert (Hx : (exists m e, f32_of_int completed = S754_finite false m e)
               \/ f32_of_int completed = S754_infinity false).
  { unfold f32_of_int, binary_normalize. destruct completed as [|p|p]; try lia.
    apply binary_round_pos. }
  assert (Hy : f32_of_int total_frames = S754_zero false
               \/ exists m e, f32_of_int total_frames = S754_finite (total_frames <? 0) m e).
  { destruct (Z.eq_dec total_frames 0) as [->|Hne]; [now left|].
    right. now apply f32_of_int_finite. }
  destruct Hx as [(mx & ex & ->)| ->], Hy as [->|(my & ey & ->)]; try reflexivity.
  eapply rounded_number, f32_div_finite_rounded.
Qed.

(** At completion the fraction is exactly 1. *)
Lemma fraction_complete (n : Z) :
  n <> 0 -> - 2 ^ 31 <= n <= 2 ^ 31 -> fraction n n = f32_of_int 1.
Proof.
  intros Hn Hr. unfold fraction.
  destruct (f32_of_int_finite n Hn Hr) as (m & e & ->). apply f32_div_same.
Qed.

End Binary32.

(* ===================================================================== *)
(** * Dispatch: running the tasks *)
(* ===================================================================== *)

Section ProcessFrames.
Variable frames : list Mat.
Variable total_frames : Z.

Lemma display_progress_frames (progress : spec_float) (s : State) :
  ascii_frames (display_progress progress s) = ascii_frames s /\
  completed_frames (display_progress progress s) = completed_frames s.
Proof. unfold display_progress. destruct (SFltb _ _); split; reflexivity. Qed.

Lemma process_frame_inv (i : nat) (s : State) :
  (i < length frames)%nat ->
  length (ascii_frames s) = length frames ->
  exists s', process_frame frames total_frames i s = Ok s' /\
             length (ascii_frames s') = length frames /\
             converted frames s' i /\
             (forall j, converted frames s j -> converted frames s' j) /\
             completed_frames s' = S (completed_frames s).
Proof.
  intros Hi Hlen. unfold process_frame, count_frame.
  destruct (lookup_lt_is_Some_2 frames i Hi) as [frame Hframe]. rewrite Hframe.
  destruct (decide (i < length (ascii_frames s))%nat) as [Hlt|Hge]; [|lia].
  eexists. split; [reflexivity|].
  unfold converted, show_progress.
  destruct (display_progress_frames
    (fraction (Z.of_nat (S (completed_frames s))) total_frames)
    {| ascii_frames := <[i:=convert_frame_to_ascii frame]> (ascii_frames s);
       completed_frames := S (completed_frames s);
       last_progress := last_progress s; cout := cout s |}) as [Hf Hc].
  cbn [completed_frames ascii_frames] in *. rewrite Hf, Hc.
  repeat split.
  - now rewrite length_insert.
  - rewrite Hframe. now apply list_lookup_insert_eq.
  - intros j Hj. destruct (decide (i = j)) as [<-|Hne].
    + rewrite Hframe. now apply list_lookup_insert_eq.
    + now rewrite list_lookup_insert_ne.
Qed.

Lemma process_loop_inv (n start : nat) (s : State) :
  (start + n <= length frames)%nat ->
  length (ascii_frames s) = length frames ->
  exists s', for_loop n start (fun i r => r ≫= process_frame frames total_frames i) (Ok s)
             = Ok s' /\
             length (ascii_frames s') = length frames /\
             (forall j, (start <= j < start + n)%nat -> converted frames s' j) /\
             (forall j, converted frames s j -> converted frames s' j) /\
             completed_frames s' = (completed_frames s + n)%nat.
Proof.
  intros Hn Hlen. induction n as [|n IH].
  - exists s. simpl. split; [reflexivity|]. split; [assumption|].
    split; [intros j Hj; lia|]. split; [auto|lia].
  - destruct IH as (s1 & Hrun & Hlen1 & Hconv & Hkeep & Hcount); [lia|].
    rewrite for_loop_snoc, Hrun.
    destruct (process_frame_inv (start + n) s1) as (s2 & Hstep & Hlen2 & Hi & Hkeep2 & Hcount2);
      [lia|assumption|].
    exists s2. split; [exact Hstep|]. split; [exact Hlen2|].
    split; [|split].
    + intros j Hj. destruct (decide (j = start + n)%nat) as [->|Hne]; [exact Hi|].
      apply Hkeep2, Hconv. lia.
    + auto.
    + lia.
Qed.

Lemma process_frames_inv (start end_ : nat) (s : State) :
  (end_ <= length frames)%nat ->
  length (ascii_frames s) = length frames ->
  exists s', process_frames start end_ frames total_frames s = Ok s' /\
             length (ascii_frames s') = length frames /\
             (forall j, (start <= j < end_)%nat -> converted frames s' j) /\
             (forall j, converted frames s j -> converted frames s' j) /\
             completed_frames s' = (completed_frames s + (end_ - start))%nat.
Proof.
  intros Hend Hlen. unfold process_frames, for_range.
  destruct (decide (start <= end_)%nat) as [Hle|Hgt].
  - destruct (process_loop_inv (end_ - start) start s) as (s' & Hrun & Hlen' & Hconv & Hkeep & Hc);
      [lia|assumption|].
    exists s'. split; [assumption|]. split; [assumption|].
    split; [intros j Hj; apply Hconv; lia|]. split; [assumption|lia].
  - replace (end_ - start)%nat with 0%nat by lia.
    exists s. simpl. split; [reflexivity|]. split; [assumption|].
    split; [intros j Hj; lia|]. split; [auto|lia].
Qed.

Lemma run_in_order_inv (tasks : list Task) (s : State) :
  Forall (fun t => t_end t <= length frames)%nat tasks ->
  length (ascii_frames s) = length frames ->
  exists s', run_in_order tasks frames total_frames s = Ok s' /\
             length (ascii_frames s') = length frames /\
             (forall j, Exists (in_task j) tasks -> converted frames s' j) /\
             (forall j, converted frames s j -> converted frames s' j).
Proof.
  intros Hok. revert s. unfold run_in_order.
  induction Hok as [|t tasks Ht _ IH]; intros s Hlen.
  - exists s. simpl. split; [reflexivity|]. split; [assumption|].
    split; [intros j Hj; inversion Hj|auto].
  - destruct (process_frames_inv (t_start t) (t_end t) s Ht Hlen)
      as (s1 & Hrun & Hlen1 & Hconv & Hkeep & _).
    destruct (IH s1 Hlen1) as (s2 & Hrest & Hlen2 & Hconv2 & Hkeep2).
    exists s2. simpl. rewrite Hrun. split; [exact Hrest|]. split; [exact Hlen2|].
    split; [|auto].
    intros j Hj. inversion Hj as [? ? Hin|? ? Hin]; subst; auto.
Qed.
End ProcessFrames.

Lemma lookup_map {A B : Type} (f : A -> B) (l : list A) (i : nat) :
  map f l !! i = f <$> (l !! i).
Proof. apply (list_lookup_fmap f l i). Qed.

Lemma spawn_valid (n w : nat) :
  (0 < w)%nat -> Forall (valid_task n) (map (nth_task n w) (seq 0 w)).
Proof.
  intros Hw. apply Forall_map, Forall_forall. intros i Hi.
  apply elem_of_seq in Hi. apply nth_task_range; lia.
Qed.

Lemma spawn_cover (n w j : nat) :
  (0 < w)%nat -> (j < n)%nat ->
  exists k t, map (nth_task n w) (seq 0 w) !! k = Some t /\ in_task j t.
Proof.
  intros Hw Hj. destruct (nth_task_cover n w j Hw Hj) as (i & Hi & Hin).
  exists i, (nth_task n w i). split; [|exact Hin].
  rewrite lookup_map, lookup_seq_lt by lia. reflexivity.
Qed.

Section ConvertBatch.
Variable frames : list Mat.
Variable total_frames : Z.

Lemma output_complete (s : State) :
  length (ascii_frames s) = length frames ->
  (forall j, (j < length frames)%nat -> converted frames s j) ->
  ascii_frames s = map convert_frame_to_ascii frames.
Proof.
  intros Hlen Hconv. apply list_eq. intros j. rewrite lookup_map.
  destruct (decide (j < length frames)%nat) as [Hj|Hj].
  - now apply Hconv.
  - rewrite !lookup_ge_None_2 by lia. reflexivity.
Qed.

Lemma run_batch_ok (num_threads : nat) :
  (0 < num_threads)%nat ->
  exists s, run_batch num_threads total_frames frames = Ok s /\
            ascii_frames s = map convert_frame_to_ascii frames.
Proof.
  intros Hw. unfold run_batch. rewrite spawn_tasks by assumption.
  cbn [mbind result_mbind result_bind].
  destruct (run_in_order_inv frames total_frames
              (map (nth_task (length frames) num_threads) (seq 0 num_threads))
              (initial_state (length frames)))
    as (s & Hrun & Hlen & Hconv & _).
  - eapply Forall_impl; [apply spawn_valid; assumption|]. intros t Ht. apply Ht.
  - simpl. apply length_replicate.
  - exists s. split; [exact Hrun|]. apply output_complete; [exact Hlen|].
    intros j Hj. apply Hconv.
    destruct (spawn_cover (length frames) num_threads j Hw Hj) as (k & t & Hk & Hin).
    apply Exists_exists. exists t. split; [|exact Hin].
    eapply list_elem_of_lookup_2; eassumption.
Qed.

Lemma convert_batch_ok (num_threads : nat) :
  (0 < num_threads)%nat ->
  convert_batch num_threads total_frames frames = Ok (map convert_frame_to_ascii frames).
Proof.
  intros Hw. unfold convert_batch.
  destruct (run_batch_ok num_threads Hw) as (s & -> & <-). reflexivity.
Qed.
End ConvertBatch.

(* ===================================================================== *)
(** * Dispatch: any schedule of the threads *)
(* ===================================================================== *)

Lemma threads_init (n : nat) (tasks : list Task) :
  Forall (valid_task n) tasks ->
  Forall2 (fun t th => th_end th = t_end t /\ (t_start t <= th_i th <= t_end t)%nat)
          tasks (map thread_of_task tasks).
Proof.
  induction 1 as [|t l Ht _ IH]; simpl; constructor.
  - unfold valid_task in Ht. simpl. lia.
  - exact IH.
Qed.

Section Schedules.
Variable frames : list Mat.
Variable total_frames : Z.
Variable tasks : list Task.
Hypothesis tasks_valid : Forall (valid_task (length frames)) tasks.

Lemma pool_inv_init : pool_inv frames tasks (initial_pool tasks (length frames)).
Proof.
  unfold pool_inv, initial_pool. cbn [threads shared ascii_frames initial_state].
  split; [apply length_replicate|]. split.
  - eapply threads_init, tasks_valid.
  - intros k t th j Ht Hth Hj. rewrite lookup_map, Ht in Hth.
    injection Hth as <-. simpl in Hj. lia.
Qed.

Lemma pool_inv_thread (p : Pool) (k : nat) (th : Thread) :
  pool_inv frames tasks p -> threads p !! k = Some th ->
  exists t, tasks !! k = Some t /\ th_end th = t_end t /\
            (t_start t <= th_i th <= t_end t)%nat /\ (t_end t <= length frames)%nat.
Proof.
  intros (_ & Hall & _) Hth.
  destruct (Forall2_lookup_r _ _ _ _ _ Hall Hth) as (t & Ht & He & Hr).
  exists t. repeat split; try assumption; try apply Hr.
  apply (Forall_lookup_1 _ _ _ _ tasks_valid Ht).
Qed.

Lemma pool_inv_step (p q : Pool) :
  pool_inv frames tasks p -> step frames total_frames p q -> pool_inv frames tasks q.
Proof.
  intros Hinv Hstep. destruct Hstep as [p k th s' Hth Hrun Hproc].
  destruct (pool_inv_thread p k th Hinv Hth) as (t & Ht & He & Hr & Hn).
  destruct Hinv as (Hlen & Hall & Hconv).
  destruct (process_frame_inv frames total_frames (th_i th) (shared p))
    as (s'' & Hproc' & Hlen' & Hi & Hkeep & _); [lia|assumption|].
  rewrite Hproc in Hproc'. injection Hproc' as <-.
  unfold pool_inv. cbn [threads shared]. split; [assumption|]. split.
  - rewrite <- (list_insert_id tasks k t Ht).
    apply Forall2_insert; [assumption|]. simpl. split; [assumption|lia].
  - intros k' t' th' j Ht' Hth' Hj.
    destruct (decide (k = k')) as [<-|Hne].
    + rewrite list_lookup_insert_eq in Hth' by (eapply lookup_lt_Some; eassumption).
      injection Hth' as <-. simpl in Hj.
      assert (t' = t) as -> by congruence.
      destruct (decide (j = th_i th)) as [->|Hj']; [assumption|].
      apply Hkeep. apply (Hconv k t th j); auto with lia.
    + rewrite list_lookup_insert_ne in Hth' by assumption.
      apply Hkeep. apply (Hconv k' t' th' j); assumption.
Qed.

Lemma pool_inv_steps (p : Pool) :
  steps frames total_frames (initial_pool tasks (length frames)) p ->
  pool_inv frames tasks p.
Proof.
  intros Hsteps. remember (initial_pool tasks (length frames)) as p0 eqn:Hp0.
  induction Hsteps as [p|p q r _ IH Hstep]; [subst p; apply pool_inv_init|].
  eapply pool_inv_step; eauto.
Qed.

Lemma pool_inv_not_faulty (p : Pool) :
  pool_inv frames tasks p -> ~ faulty frames total_frames p.
Proof.
  intros Hinv (k & th & Hth & Hrun & Hproc).
  destruct (pool_inv_thread p k th Hinv Hth) as (t & Ht & He & Hr & Hn).
  destruct Hinv as (Hlen & _ & _).
  destruct (process_frame_inv frames total_frames (th_i th) (shared p))
    as (s'' & Hproc' & _); [lia|assumption|].
  congruence.
Qed.

Lemma pool_inv_progress (p : Pool) :
  pool_inv frames tasks p -> ~ finished p -> exists q, step frames total_frames p q.
Proof.
  intros Hinv Hnot. unfold finished in Hnot.
  apply not_Forall_Exists in Hnot; [|intros th; apply _].
  apply Exists_exists in Hnot. destruct Hnot as (th & Hin & Hlt).
  unfold compose in Hlt.
  apply list_elem_of_lookup in Hin. destruct Hin as [k Hth].
  destruct (pool_inv_thread p k th Hinv Hth) as (t & Ht & He & Hr & Hn).
  destruct Hinv as (Hlen & _ & _).
  destruct (process_frame_inv frames total_frames (th_i th) (shared p))
    as (s' & Hproc & _); [lia|assumption|].
  eexists. eapply step_thread; eauto. lia.
Qed.

Lemma pool_inv_finished (p : Pool) :
  pool_inv frames tasks p -> finished p ->
  (forall j, (j < length frames)%nat -> exists k t, tasks !! k = Some t /\ in_task j t) ->
  ascii_frames (shared p) = map convert_frame_to_ascii frames.
Proof.
  intros (Hlen & Hall & Hconv) Hfin Hcover.
  apply output_complete; [assumption|]. intros j Hj.
  destruct (Hcover j Hj) as (k & t & Ht & Hin).
  destruct (Forall2_lookup_l _ _ _ _ _ Hall Ht) as (th & Hth & He & Hr).
  apply (Hconv k t th j Ht Hth).
  pose proof (Forall_lookup_1 _ _ _ _ Hfin Hth) as Hdone. simpl in Hdone.
  unfold in_task in Hin. lia.
Qed.
End Schedules.

(** Two threads that can still run are never about to write the same slot. *)
Lemma pool_inv_no_conflict (frames : list Mat) (w : nat) (p : Pool) (k k' : nat)
  (th th' : Thread) :
  pool_inv frames (map (nth_task (length frames) w) (seq 0 w)) p ->
  threads p !! k = Some th -> threads p !! k' = Some th' ->
  (th_i th < th_end th)%nat -> (th_i th' < th_end th')%nat ->
  th_i th = th_i th' -> k = k'.
Proof.
  intros (_ & Hall & _) Hk Hk' Hrun Hrun' Heq.
  destruct (Forall2_lookup_r _ _ _ _ _ Hall Hk) as (t & Ht & He & Hr).
  destruct (Forall2_lookup_r _ _ _ _ _ Hall Hk') as (t' & Ht' & He' & Hr').
  assert (Hkw : (k < w)%nat).
  { apply lookup_lt_Some in Ht. now rewrite length_map, length_seq in Ht. }
  assert (Hkw' : (k' < w)%nat).
  { apply lookup_lt_Some in Ht'. now rewrite length_map, length_seq in Ht'. }
  rewrite lookup_map, lookup_seq_lt in Ht, Ht' by assumption.
  simpl in Ht, Ht'. injection Ht as <-. injection Ht' as <-.
  apply (nth_task_unique (length frames) w k k' (th_i th)); try assumption.
  - unfold in_task. lia.
  - unfold in_task. lia.
Qed.

Lemma sum_list_insert (f : Thread -> nat) (l : list Thread) (k : nat) (x y : Thread) :
  l !! k = Some x ->
  (sum_list (map f (<[k:=y]> l)) + f x = sum_list (map f l) + f y)%nat.
Proof.
  revert k. induction l as [|z l IH]; intros [|k] Hk; simpl in *; try discriminate.
  - injection Hk as ->. lia.
  - specialize (IH k Hk). lia.
Qed.

Lemma step_remaining frames total_frames (p q : Pool) :
  step frames total_frames p q -> remaining p = S (remaining q).
Proof.
  intros [p' k th s' Hth Hrun _]. unfold remaining. cbn [threads].
  pose proof (sum_list_insert (fun th => th_end th - th_i th)%nat (threads p') k th
                {| th_i := S (th_i th); th_end := th_end th |} Hth) as Hsum.
  simpl in Hsum. lia.
Qed.

(* ===================================================================== *)
(** * Dispatch: the run in order is a schedule *)
(* ===================================================================== *)

Section InOrder.
Variable frames : list Mat.
Variable total_frames : Z.

Lemma steps_trans (p q r : Pool) :
  steps frames total_frames p q -> steps frames total_frames q r ->
  steps frames total_frames p r.
Proof.
  intros Hpq Hqr. induction Hqr as [q|q r r' _ IH Hstep]; [assumption|].
  eapply steps_snoc; [apply IH; assumption|exact Hstep].
Qed.

Lemma for_loop_failed (n i : nat) (r : result State) :
  (forall s, r <> Ok s) ->
  for_loop n i (fun j r => r ≫= process_frame frames total_frames j) r = r.
Proof.
  revert i. induction n as [|n IH]; intros i Hr; [reflexivity|].
  simpl. destruct r as [s| |]; [now destruct (Hr s)| |]; apply IH; discriminate.
Qed.

(** The loop of one thread, run alone, is a sequence of steps of the pool. *)
Lemma thread_run_steps (n : nat) (p : Pool) (k i e : nat) (s' : State) :
  e = (i + n)%nat ->
  threads p !! k = Some {| th_i := i; th_end := e |} ->
  for_loop n i (fun j r => r ≫= process_frame frames total_frames j) (Ok (shared p)) = Ok s' ->
  steps frames total_frames p
    {| threads := <[k := {| th_i := e; th_end := e |}]> (threads p); shared := s' |}.
Proof.
  revert p i s'. induction n as [|n IH]; intros p i s' He Hth Hrun.
  - simpl in Hrun. injection Hrun as <-. subst e. rewrite Nat.add_0_r in *.
    rewrite list_insert_id by assumption. destruct p. apply steps_refl.
  - simpl in Hrun.
    destruct (process_frame frames total_frames i (shared p)) as [s1| |] eqn:Hproc;
      cbn [mbind result_mbind result_bind] in Hrun.
    + assert (Hlt : (k < length (threads p))%nat) by (eapply lookup_lt_Some; eassumption).
      specialize (IH {| threads := <[k := {| th_i := S i; th_end := e |}]> (threads p);
                        shared := s1 |} (S i) s').
      cbn [threads shared] in IH.
      rewrite list_lookup_insert_eq, list_insert_insert_eq in IH by assumption.
      eapply steps_trans; [|apply IH; [lia|reflexivity|exact Hrun]].
      eapply steps_snoc; [apply steps_refl|].
      apply (step_thread frames total_frames p k {| th_i := i; th_end := e |} s1);
        [assumption|simpl; lia|assumption].
    + rewrite for_loop_failed in Hrun by discriminate. discriminate.
    + rewrite for_loop_failed in Hrun by discriminate. discriminate.
Qed.

Lemma fold_failed (tasks : list Task) (r : result State) :
  (forall s, r <> Ok s) ->
  fold_left (fun r t => r ≫= process_frames (t_start t) (t_end t) frames total_frames)
            tasks r = r.
Proof.
  revert r. induction tasks as [|t tasks IH]; intros r Hr; [reflexivity|].
  simpl. destruct r as [s| |]; [now destruct (Hr s)| |]; apply IH; discriminate.
Qed.

(** Running the tasks in order is one of the schedules. *)
Lemma run_in_order_steps (tasks : list Task) (pre : list Thread) (p : Pool) (s' : State) :
  Forall (fun t => t_start t <= t_end t)%nat tasks ->
  threads p = (pre ++ map thread_of_task tasks)%list ->
  run_in_order tasks frames total_frames (shared p) = Ok s' ->
  steps frames total_frames p
    {| threads := (pre ++ map (fun t => {| th_i := t_end t; th_end := t_end t |}) tasks)%list;
       shared := s' |}.
Proof.
  intros Hvalid. revert pre p s'.
  induction Hvalid as [|t tasks Ht _ IH]; intros pre p s' Hth Hrun.
  - unfold run_in_order in Hrun. simpl in *. injection Hrun as <-.
    rewrite <- Hth. destruct p. apply steps_refl.
  - unfold run_in_order in Hrun. simpl in Hrun.
    destruct (process_frames (t_start t) (t_end t) frames total_frames (shared p))
      as [s1| |] eqn:Hproc; cbn [mbind result_mbind result_bind] in Hrun.
    + unfold process_frames, for_range in Hproc. simpl in Hth.
      assert (Hk : threads p !! length pre = Some (thread_of_task t))
        by (rewrite Hth; now apply list_lookup_middle).
      pose proof (thread_run_steps (t_end t - t_start t) p (length pre) (t_start t) (t_end t) s1
                    ltac:(lia) Hk Hproc) as Hsteps.
      rewrite Hth, insert_app_r_alt, Nat.sub_diag in Hsteps by lia.
      cbn [insert list_insert] in Hsteps.
      eapply steps_trans; [exact Hsteps|].
      specialize (IH (pre ++ [{| th_i := t_end t; th_end := t_end t |}])%list
                     {| threads := (pre ++ {| th_i := t_end t; th_end := t_end t |}
                                        :: map thread_of_task tasks)%list;
                        shared := s1 |} s').
      cbn [threads shared] in IH. rewrite <- !app_assoc in IH. simpl in IH.
      apply IH; [reflexivity|exact Hrun].
    + rewrite fold_failed in Hrun by discriminate. discriminate.
    + rewrite fold_failed in Hrun by discriminate. discriminate.
Qed.

Lemma run_batch_schedule (num_threads : nat) (s : State) :
  run_batch num_threads total_frames frames = Ok s ->
  exists tasks p,
    spawn (length frames) num_threads = Ok tasks /\
    steps frames total_frames (initial_pool tasks (length frames)) p /\
    finished p /\ shared p = s.
Proof.
  unfold run_batch. intros Hrun.
  destruct (Nat.eq_dec num_threads 0) as [->|Hw]; [discriminate|].
  rewrite spawn_tasks in * by lia. cbn [mbind result_mbind result_bind] in Hrun.
  eexists. eexists. split; [reflexivity|].
  pose proof (run_in_order_steps _ [] (initial_pool _ (length frames)) s
                (Forall_impl _ _ _ (spawn_valid (length frames) num_threads ltac:(lia))
                   (fun t H => proj1 H)) eq_refl Hrun) as Hsteps.
  split; [exact Hsteps|]. split; [|reflexivity].
  unfold finished. cbn [threads]. simpl. apply Forall_map, Forall_forall.
  intros t _. simpl. lia.
Qed.
End InOrder.

(* ===================================================================== *)
(** * The claims about the dispatcher *)
(* ===================================================================== *)

(** C1. For every batch of N frames and every worker count W > 0 the
    dispatcher returns N texts, the i-th being the conversion of frame i.
    This holds for the schedule that runs the tasks in order and for every
    other schedule of the threads: no schedule reaches an access out of
    range, an unfinished pool can always take a step, every step uses up one
    of the remaining frames, no two threads are ever about to write the same
    slot, and once all threads are finished the output is the frames
    converted in their order.  N < W is included. *)
Theorem convert_batch_preserves_order
  (num_threads : nat) (total_frames : Z) (frames : list Mat) :
  (0 < num_threads)%nat ->
  convert_batch num_threads total_frames frames = Ok (map convert_frame_to_ascii frames)
  /\ length (map convert_frame_to_ascii frames) = length frames
  /\ (forall i frame, frames !! i = Some frame ->
        map convert_frame_to_ascii frames !! i = Some (convert_frame_to_ascii frame))
  /\ exists tasks,
       spawn (length frames) num_threads = Ok tasks /\
       (exists s p, run_batch num_threads total_frames frames = Ok s /\
                    steps frames total_frames (initial_pool tasks (length frames)) p /\
                    finished p /\ shared p = s) /\
       forall p, steps frames total_frames (initial_pool tasks (length frames)) p ->
         ~ faulty frames total_frames p
         /\ (finished p -> ascii_frames (shared p) = map convert_frame_to_ascii frames)
         /\ (~ finished p -> exists q, step frames total_frames p q)
         /\ (forall q, step frames total_frames p q -> remaining p = S (remaining q))
         /\ (forall k k' th th',
               threads p !! k = Some th -> threads p !! k' = Some th' ->
               (th_i th < th_end th)%nat -> (th_i th' < th_end th')%nat ->
               th_i th = th_i th' -> k = k').
Proof.
  intros Hw.
  split; [now apply convert_batch_ok|].
  split; [apply length_map|].
  split; [intros i frame Hi; now rewrite lookup_map, Hi|].
  exists (map (nth_task (length frames) num_threads) (seq 0 num_threads)).
  split; [now apply spawn_tasks|].
  split.
  { destruct (run_batch_ok frames total_frames num_threads Hw) as (s & Hrun & _).
    destruct (run_batch_schedule frames total_frames num_threads s Hrun)
      as (tasks & p & Hspawn & Hsteps & Hfin & Hs).
    rewrite spawn_tasks in Hspawn by assumption. injection Hspawn as <-.
    exists s, p. auto. }
  intros p Hsteps.
  pose proof (spawn_valid (length frames) num_threads Hw) as Hvalid.
  pose proof (pool_inv_steps frames total_frames _ Hvalid p Hsteps) as Hinv.
  split; [eapply pool_inv_not_faulty; eassumption|].
  split.
  { intros Hfin. eapply pool_inv_finished; try eassumption.
    intros j Hj. now apply spawn_cover. }
  split; [eapply pool_inv_progress; eassumption|].
  split; [intros q Hstep; eapply step_remaining; eassumption|].
  intros k k' th th'. now apply (pool_inv_no_conflict frames num_threads p).
Qed.

Lemma convert_batch_preserves_order_witness :
  convert_batch 3 2 two_frames = Ok (map convert_frame_to_ascii two_frames)
  /\ length (map convert_frame_to_ascii two_frames) = length two_frames
  /\ (forall i frame, two_frames !! i = Some frame ->
        map convert_frame_to_ascii two_frames !! i = Some (convert_frame_to_ascii frame))
  /\ exists tasks,
       spawn (length two_frames) 3 = Ok tasks /\
       (exists s p, run_batch 3 2 two_frames = Ok s /\
                    steps two_frames 2 (initial_pool tasks (length two_frames)) p /\
                    finished p /\ shared p = s) /\
       forall p, steps two_frames 2 (initial_pool tasks (length two_frames)) p ->
         ~ faulty two_frames 2 p
         /\ (finished p -> ascii_frames (shared p) = map convert_frame_to_ascii two_frames)
         /\ (~ finished p -> exists q, step two_frames 2 p q)
         /\ (forall q, step two_frames 2 p q -> remaining p = S (remaining q))
         /\ (forall k k' th th',
               threads p !! k = Some th -> threads p !! k' = Some th' ->
               (th_i th < th_end th)%nat -> (th_i th' < th_end th')%nat ->
               th_i th = th_i th' -> k = k').
Proof.
  apply (convert_batch_preserves_order 3 2 two_frames). lia.
Defined.

(** C2. For N frames and W >= 1 threads, with chunk_size = floor (N / W):
    thread i < W - 1 is given the chunk_size indices from i * chunk_size on,
    and the last thread, W - 1, the N - (W - 1) * chunk_size indices from
    (W - 1) * chunk_size to N - 1; every index below N lies in the range of
    exactly one thread.  For N = 5 and W = 3 the threads get [0], [1] and
    [2; 3; 4]. *)
Theorem dispatcher_partition (n num_threads i : nat) :
  (1 <= num_threads)%nat -> (i < num_threads)%nat ->
  let chunk_size := (n / num_threads)%nat in
  exists tasks t,
    spawn n num_threads = Ok tasks /\ length tasks = num_threads /\
    tasks !! i = Some t /\
    ((i < num_threads - 1)%nat ->
       t = {| t_start := i * chunk_size; t_end := i * chunk_size + chunk_size |} /\
       task_indices t = seq (i * chunk_size) chunk_size) /\
    (i = (num_threads - 1)%nat ->
       t = {| t_start := (num_threads - 1) * chunk_size; t_end := n |} /\
       task_indices t = seq ((num_threads - 1) * chunk_size)
                            (n - (num_threads - 1) * chunk_size)) /\
    (forall j, (j < n)%nat ->
       exists k t', tasks !! k = Some t' /\ in_task j t' /\
                    forall k' t'', tasks !! k' = Some t'' -> in_task j t'' -> k' = k) /\
    spawn 5 3 = Ok [ {| t_start := 0; t_end := 1 |}; {| t_start := 1; t_end := 2 |};
                     {| t_start := 2; t_end := 5 |} ] /\
    map task_indices [ {| t_start := 0; t_end := 1 |}; {| t_start := 1; t_end := 2 |};
                       {| t_start := 2; t_end := 5 |} ]
    = [ [0]; [1]; [2; 3; 4] ]%nat.
Proof.
  intros Hw Hi chunk_size.
  exists (map (nth_task n num_threads) (seq 0 num_threads)), (nth_task n num_threads i).
  split; [apply spawn_tasks; lia|].
  split; [now rewrite length_map, length_seq|].
  split; [rewrite lookup_map, lookup_seq_lt by lia; reflexivity|].
  split; [|split; [|split; [|split; reflexivity]]].
  - intros Hlt. unfold nth_task. fold chunk_size.
    destruct (Nat.eqb_spec i (num_threads - 1)) as [He|_]; [lia|].
    split; [f_equal; lia|].
    rewrite task_indices_seq. cbn [t_start t_end]. f_equal. lia.
  - intros ->. unfold nth_task. fold chunk_size. rewrite Nat.eqb_refl.
    split; [reflexivity|]. now rewrite task_indices_seq.
  - intros j Hj.
    destruct (nth_task_cover n num_threads j ltac:(lia) Hj) as (k & Hk & Hin).
    exists k, (nth_task n num_threads k).
    split; [rewrite lookup_map, lookup_seq_lt by lia; reflexivity|].
    split; [exact Hin|].
    intros k' t'' Hk' Hin'.
    assert (Hkw : (k' < num_threads)%nat).
    { apply lookup_lt_Some in Hk'. now rewrite length_map, length_seq in Hk'. }
    rewrite lookup_map, lookup_seq_lt in Hk' by assumption.
    simpl in Hk'. injection Hk' as <-.
    now apply (nth_task_unique n num_threads k' k j).
Qed.

Lemma dispatcher_partition_witness :
  exists tasks t,
    spawn 5 3 = Ok tasks /\ length tasks = 3%nat /\
    tasks !! 2%nat = Some t /\
    ((2 < 3 - 1)%nat ->
       t = {| t_start := 2 * (5 / 3); t_end := 2 * (5 / 3) + 5 / 3 |} /\
       task_indices t = seq (2 * (5 / 3)) (5 / 3)) /\
    (2%nat = (3 - 1)%nat ->
       t = {| t_start := (3 - 1) * (5 / 3); t_end := 5 |} /\
       task_indices t = seq ((3 - 1) * (5 / 3)) (5 - (3 - 1) * (5 / 3))) /\
    (forall j, (j < 5)%nat ->
       exists k t', tasks !! k = Some t' /\ in_task j t' /\
                    forall k' t'', tasks !! k' = Some t'' -> in_task j t'' -> k' = k) /\
    spawn 5 3 = Ok [ {| t_start := 0; t_end := 1 |}; {| t_start := 1; t_end := 2 |};
                     {| t_start := 2; t_end := 5 |} ] /\
    map task_indices [ {| t_start := 0; t_end := 1 |}; {| t_start := 1; t_end := 2 |};
                       {| t_start := 2; t_end := 5 |} ]
    = [ [0]; [1]; [2; 3; 4] ]%nat.
Proof.
  apply (dispatcher_partition 5 3 2); lia.
Defined.

(** C7 (the code at a worker count of zero). [frames.size() / num_threads]
    divides by zero: the batch is not converted, whereas one worker would
    have converted it. *)
Theorem zero_workers_divide_by_zero (total_frames : Z) (frames : list Mat) :
  frames_per_thread (length frames) 0 = DivisionByZero /\
  spawn (length frames) 0 = DivisionByZero /\
  convert_batch 0 total_frames frames = DivisionByZero /\
  convert_batch 1 total_frames frames = Ok (map convert_frame_to_ascii frames).
Proof.
  repeat split. apply convert_batch_ok. lia.
Qed.

(** C8 as stated fails: for an empty batch and three threads the dispatch
    loop still spawns three tasks, each with the empty range [0, 0). *)
Lemma empty_batch_spawns_tasks :
  exists tasks,
    spawn 0 3 = Ok tasks /\ length tasks = 3%nat /\ tasks <> [] /\
    tasks = replicate 3 {| t_start := 0; t_end := 0 |} /\
    convert_batch 3 0 [] = Ok [].
Proof.
  exists (replicate 3 {| t_start := 0; t_end := 0 |}).
  repeat split. discriminate.
Qed.

(** C8, amended. For a batch of N < W frames and W > 0 threads, W tasks are
    spawned: the threads 0 .. W - 2 get the empty range [0, 0) and the last
    thread gets [0, N); every range lies inside [0, N], and the batch is
    converted in order.  For N = 0 all W tasks are empty and the result is
    the empty sequence. *)
Theorem small_batch_tasks (num_threads : nat) (total_frames : Z) (frames : list Mat) :
  (0 < num_threads)%nat -> (length frames < num_threads)%nat ->
  exists tasks,
    spawn (length frames) num_threads = Ok tasks /\
    length tasks = num_threads /\
    (forall i, (i < num_threads - 1)%nat ->
               tasks !! i = Some {| t_start := 0; t_end := 0 |}) /\
    tasks !! (num_threads - 1)%nat = Some {| t_start := 0; t_end := length frames |} /\
    Forall (valid_task (length frames)) tasks /\
    convert_batch num_threads total_frames frames = Ok (map convert_frame_to_ascii frames) /\
    (frames = [] ->
       Forall (fun t => t = {| t_start := 0; t_end := 0 |} /\ task_indices t = []) tasks /\
       convert_batch num_threads total_frames frames = Ok []).
Proof.
  intros Hw Hn.
  assert (Hc : (length frames / num_threads = 0)%nat) by (apply Nat.div_small; lia).
  exists (map (nth_task (length frames) num_threads) (seq 0 num_threads)).
  split; [now apply spawn_tasks|].
  split; [now rewrite length_map, length_seq|].
  split.
  { intros i Hi. rewrite lookup_map, lookup_seq_lt by lia. simpl.
    unfold nth_task. rewrite Hc.
    destruct (Nat.eqb_spec i (num_threads - 1)) as [He|_]; [lia|].
    do 2 f_equal; lia. }
  split.
  { rewrite lookup_map, lookup_seq_lt by lia. simpl.
    unfold nth_task. rewrite Hc, Nat.eqb_refl. do 2 f_equal; lia. }
  split; [now apply spawn_valid|].
  split; [now apply convert_batch_ok|].
  intros ->. split; [|now apply convert_batch_ok].
  apply Forall_map, Forall_forall. intros i _. simpl.
  unfold nth_task. simpl. rewrite Nat.Div0.div_0_l.
  destruct (i =? num_threads - 1)%nat; rewrite ?Nat.mul_0_r; split; reflexivity.
Qed.

Lemma small_batch_tasks_witness :
  exists tasks,
    spawn (length (@nil Mat)) 3 = Ok tasks /\
    length tasks = 3%nat /\
    (forall i, (i < 3 - 1)%nat -> tasks !! i = Some {| t_start := 0; t_end := 0 |}) /\
    tasks !! (3 - 1)%nat = Some {| t_start := 0; t_end := length (@nil Mat) |} /\
    Forall (valid_task (length (@nil Mat))) tasks /\
    convert_batch 3 0 [] = Ok (map convert_frame_to_ascii []) /\
    (@nil Mat = [] ->
       Forall (fun t => t = {| t_start := 0; t_end := 0 |} /\ task_indices t = []) tasks /\
       convert_batch 3 0 [] = Ok []).
Proof.
  apply (small_batch_tasks 3 0 []); simpl; lia.
Defined.

(* ===================================================================== *)
(** * Frames without pixels *)
(* ===================================================================== *)

Lemma concat_newlines (f : nat -> string) (l : list nat) :
  (forall i, f i = "") ->
  concat_strings (map (fun s => s ++ String newline "") (map f l))
  = repeat_string (length l) (String newline "").
Proof.
  intros Hf. induction l as [|i l IH]; simpl; [reflexivity|].
  now rewrite Hf, IH.
Qed.

Lemma convert_frame_no_columns (frame : Mat) :
  cols frame = 0%nat ->
  convert_frame_to_ascii frame = repeat_string (rows frame) (String newline "").
Proof.
  intros Hc. rewrite convert_frame_to_ascii_rows, concat_newlines.
  - now rewrite length_seq.
  - intros i. unfold row_text, row_units. now rewrite Hc.
Qed.

Lemma convert_frame_no_rows (frame : Mat) :
  rows frame = 0%nat -> convert_frame_to_ascii frame = "".
Proof. intros Hr. rewrite convert_frame_to_ascii_rows, Hr. reflexivity. Qed.

Lemma lines_newlines (n : nat) :
  lines (repeat_string n (String newline "")) = replicate n "".
Proof.
  unfold lines. induction n as [|n IH]; [reflexivity|].
  cbn [repeat_string String.append lines_from replicate].
  rewrite Ascii.eqb_refl. now rewrite IH.
Qed.

(** C9 as stated fails: a frame without rows is converted to the empty text
    and a frame of two rows without columns to two empty lines; neither is
    rejected or skipped, the batch keeps the text in the frame's slot. *)
Lemma empty_frame_is_converted :
  convert_frame_to_ascii (mkMat 0 0 (fun _ _ => black)) = "" /\
  convert_frame_to_ascii (mkMat 0 3 (fun _ _ => black)) = "" /\
  convert_frame_to_ascii (mkMat 2 0 (fun _ _ => black))
  = String newline (String newline "") /\
  convert_batch 1 1 [mkMat 0 0 (fun _ _ => black)] = Ok [""] /\
  convert_batch 1 2 [mkMat 0 0 (fun _ _ => black); mkMat 1 1 (fun _ _ => black)]
  = Ok [""; String ESC "[38;2;0;0;0m." ++ String newline ""].
Proof. repeat split. Qed.

(** C9, amended. A frame with zero height or zero width is converted like
    any other: the result is one newline per row and nothing else (the
    empty text when the height is zero), and a batch keeps that text at the
    frame's index. *)
Theorem degenerate_frame_converted
  (frame : Mat) (num_threads : nat) (total_frames : Z) :
  rows frame = 0%nat \/ cols frame = 0%nat -> (0 < num_threads)%nat ->
  convert_frame_to_ascii frame = repeat_string (rows frame) (String newline "")
  /\ (rows frame = 0%nat -> convert_frame_to_ascii frame = "")
  /\ lines (convert_frame_to_ascii frame) = replicate (rows frame) ""
  /\ convert_batch num_threads total_frames [frame]
     = Ok [repeat_string (rows frame) (String newline "")].
Proof.
  intros Hdeg Hw.
  assert (Hconv : convert_frame_to_ascii frame
                  = repeat_string (rows frame) (String newline "")).
  { destruct Hdeg as [Hr|Hc].
    - rewrite convert_frame_no_rows, Hr by assumption. reflexivity.
    - now apply convert_frame_no_columns. }
  split; [exact Hconv|].
  split; [apply convert_frame_no_rows|].
  split.
  - rewrite Hconv. apply lines_newlines.
  - rewrite convert_batch_ok by assumption. simpl. now rewrite Hconv.
Qed.

Lemma degenerate_frame_converted_witness :
  convert_frame_to_ascii (mkMat 2 0 (fun _ _ => black))
  = repeat_string (rows (mkMat 2 0 (fun _ _ => black))) (String newline "")
  /\ (rows (mkMat 2 0 (fun _ _ => black)) = 0%nat ->
      convert_frame_to_ascii (mkMat 2 0 (fun _ _ => black)) = "")
  /\ lines (convert_frame_to_ascii (mkMat 2 0 (fun _ _ => black)))
     = replicate (rows (mkMat 2 0 (fun _ _ => black))) ""
  /\ convert_batch 1 1 [mkMat 2 0 (fun _ _ => black)]
     = Ok [repeat_string (rows (mkMat 2 0 (fun _ _ => black))) (String newline "")].
Proof.
  apply (degenerate_frame_converted (mkMat 2 0 (fun _ _ => black)) 1 1).
  - right. reflexivity.
  - lia.
Defined.

(* ===================================================================== *)
(** * Progress bar *)
(* ===================================================================== *)

Lemma StronglySorted_snoc {A : Type} (R : A -> A -> Prop) (l : list A) (y : A) :
  StronglySorted R l -> Forall (fun x => R x y) l -> StronglySorted R (l ++ [y]).
Proof.
  induction 1 as [|x l Hl IH Hx]; intros Hy; simpl.
  - repeat constructor.
  - inversion Hy as [|? ? Hxy Hly]; subst. constructor; [now apply IH|].
    apply Forall_app. split; [assumption|]. now constructor.
Qed.

Lemma sorted_never_lower (l : list spec_float) :
  StronglySorted f32_le l ->
  forall i j x y, (i < j)%nat -> l !! i = Some x -> l !! j = Some y -> ~ f32_lt y x.
Proof.
  induction 1 as [|z l Hl IH Hz]; intros i j x y Hij Hi Hj; [discriminate|].
  destruct j as [|j]; [lia|]. cbn in Hj. destruct i as [|i].
  - injection Hi as <-. apply f32_le_not_lt.
    exact (proj1 (Forall_lookup _ _) Hz j y Hj).
  - cbn in Hi. apply (IH i j); [lia|assumption|assumption].
Qed.

Lemma report_inv_init (n : nat) : report_inv (initial_state n).
Proof.
  unfold report_inv. cbn [initial_state cout last_progress].
  split; [constructor|]. split; [constructor|]. split; [reflexivity|].
  split; [reflexivity|]. intros H. now destruct H.
Qed.

Lemma display_progress_quiet (progress : spec_float) (s : State) :
  SFltb (f32_sub progress (last_progress s)) f32_threshold = true ->
  display_progress progress s = s.
Proof. intros H. unfold display_progress. now rewrite H. Qed.

Lemma display_progress_report (progress : spec_float) (s : State) :
  SFltb (f32_sub progress (last_progress s)) f32_threshold = false ->
  cout (display_progress progress s) = (cout s ++ [progress])%list /\
  last_progress (display_progress progress s) = progress.
Proof. intros H. unfold display_progress. rewrite H. now split. Qed.

(** A call that is not overlapped by another one keeps the reports in
    order, whatever number it is called with. *)
Lemma display_progress_inv (progress : spec_float) (s : State) :
  is_nan progress = false -> report_inv s -> report_inv (display_progress progress s).
Proof.
  intros Hp (Hsorted & Hle & Hnan & Hnil & Hlast).
  destruct (SFltb (f32_sub progress (last_progress s)) f32_threshold) eqn:Hguard.
  - rewrite display_progress_quiet by assumption. now repeat split.
  - destruct (display_progress_report progress s Hguard) as [Hc Hl].
    assert (Hstep : f32_le (last_progress s) progress).
    { destruct (guard_passed progress (last_progress s) Hp Hnan Hguard)
        as [Hlt|(sg & -> & Hsame)]; [now apply f32_lt_le|].
      rewrite Hsame. now apply f32_le_refl. }
    assert (Hall : Forall (fun x => f32_le x progress) (cout s)).
    { eapply Forall_impl; [exact Hle|]. intros x Hx. cbn beta in Hx.
      now apply f32_le_trans with (last_progress s). }
    unfold report_inv. rewrite Hc, Hl. split; [|split; [|split; [|split]]].
    + now apply StronglySorted_snoc.
    + apply Forall_app. split; [assumption|].
      constructor; [now apply f32_le_refl|constructor].
    + assumption.
    + intros Habs. now destruct (cout s).
    + intros _. apply last_snoc.
Qed.

Lemma count_frame_effect (frames : list Mat) (i : nat) (s s' : State) :
  count_frame frames i s = Ok s' ->
  completed_frames s' = S (completed_frames s)
  /\ length (ascii_frames s') = length (ascii_frames s)
  /\ (forall j, j <> i -> ascii_frames s' !! j = ascii_frames s !! j)
  /\ last_progress s' = last_progress s
  /\ cout s' = cout s.
Proof.
  unfold count_frame. intros Hrun.
  destruct (frames !! i) as [frame|]; [|discriminate].
  destruct (decide _); [|discriminate].
  injection Hrun as <-. cbn [completed_frames ascii_frames last_progress cout].
  split; [reflexivity|]. split; [apply length_insert|].
  split; [intros j Hj; now apply list_lookup_insert_ne|]. now split.
Qed.

Lemma show_progress_inv (total_frames : Z) (s : State) :
  (- 2 ^ 31 <= total_frames <= 2 ^ 31)%Z -> (0 < completed_frames s)%nat ->
  report_inv s -> report_inv (show_progress total_frames s).
Proof.
  intros Ht Hc Hinv. unfold show_progress.
  apply display_progress_inv; [|assumption].
  apply fraction_number; [lia|assumption].
Qed.

(** What every schedule of the workers maintains: the reports are in
    order, and a worker that is about to show its progress has counted its
    frame. *)
Lemma move_worker_inv (frames : list Mat) (total_frames : Z) (k : nat) (c c' : Crew) :
  (- 2 ^ 31 <= total_frames <= 2 ^ 31)%Z ->
  move_worker frames total_frames k c = Some c' ->
  report_inv (crew_state c)
  /\ Forall (fun w => w_counted w = true -> (0 < completed_frames (crew_state c))%nat)
            (workers c) ->
  report_inv (crew_state c')
  /\ Forall (fun w => w_counted w = true -> (0 < completed_frames (crew_state c'))%nat)
            (workers c').
Proof.
  intros Ht Hmove [Hinv Hcounted]. unfold move_worker in Hmove.
  destruct (workers c !! k) as [w|] eqn:Hw; [|discriminate].
  destruct (w_counted w) eqn:Hcw.
  - injection Hmove as <-. cbn [crew_state workers].
    pose proof (proj1 (Forall_lookup _ _) Hcounted k w Hw Hcw) as Hpos.
    split; [now apply show_progress_inv|].
    unfold show_progress.
    rewrite (proj2 (display_progress_frames _ _)).
    apply Forall_insert; [assumption|]. discriminate.
  - destruct (decide (w_i w < w_end w)%nat); [|discriminate].
    destruct (count_frame frames (w_i w) (crew_state c)) as [s'| |] eqn:Hcount;
      try discriminate.
    injection Hmove as <-. cbn [crew_state workers].
    destruct (count_frame_effect _ _ _ _ Hcount) as (Hc & _ & _ & Hl & Ho).
    split.
    + destruct Hinv as (H1 & H2 & H3 & H4 & H5).
      unfold report_inv. rewrite Hl, Ho. now repeat split.
    + apply Forall_forall. intros w' _ _. lia.
Qed.

Lemma run_schedule_inv (frames : list Mat) (total_frames : Z) (schedule : list nat) :
  (- 2 ^ 31 <= total_frames <= 2 ^ 31)%Z ->
  forall c c',
    run_schedule frames total_frames schedule c = Some c' ->
    report_inv (crew_state c)
    /\ Forall (fun w => w_counted w = true -> (0 < completed_frames (crew_state c))%nat)
              (workers c) ->
    report_inv (crew_state c').
Proof.
  intros Ht. induction schedule as [|k schedule IH]; intros c c' Hrun Hinv.
  - injection Hrun as <-. apply Hinv.
  - cbn [run_schedule] in Hrun.
    destruct (move_worker frames total_frames k c) as [c1|] eqn:Hmove; [|discriminate].
    apply (IH c1 c' Hrun). now apply (move_worker_inv frames total_frames k c).
Qed.

Lemma initial_crew_inv (tasks : list Task) (n : nat) :
  report_inv (crew_state (initial_crew tasks n))
  /\ Forall (fun w => w_counted w = true
                      -> (0 < completed_frames (crew_state (initial_crew tasks n)))%nat)
            (workers (initial_crew tasks n)).
Proof.
  split; [apply report_inv_init|].
  unfold initial_crew. cbn [workers]. apply Forall_map, Forall_forall.
  intros t _. discriminate.
Qed.

(** A whole iteration of a thread is two moves of its worker. *)
Lemma step_two_moves (frames : list Mat) (total_frames : Z) (p q : Pool) :
  step frames total_frames p q ->
  exists k, run_schedule frames total_frames [k; k] (crew_of_pool p)
            = Some (crew_of_pool q).
Proof.
  intros [p' k th s' Hth Hlt Hproc]. exists k.
  unfold process_frame in Hproc.
  destruct (count_frame frames (th_i th) (shared p')) as [s1| |] eqn:Hcount;
    try discriminate.
  cbn [mbind result_mbind result_bind] in Hproc. injection Hproc as <-.
  cbn [run_schedule]. unfold move_worker at 1. cbn [crew_of_pool workers crew_state].
  rewrite list_lookup_fmap, Hth. cbn [fmap option_fmap option_map w_counted w_i w_end].
  destruct (decide (th_i th < th_end th)%nat); [|lia].
  rewrite Hcount. unfold move_worker. cbn [workers crew_state].
  rewrite list_lookup_insert_eq
    by (rewrite length_fmap; now apply lookup_lt_Some with th).
  cbn [w_counted w_i w_end]. rewrite list_insert_insert_eq.
  unfold crew_of_pool. cbn [threads shared].
  now rewrite list_fmap_insert.
Qed.

(** C6 as stated fails.  With one thread and 22 frames the reports are the
    fractions 1/22, 3/22, ..., 21/22, shown as 4 % to 95 %; at completion
    the fraction is exactly 1, the difference to the last report is below
    [0.05f], and the call writes nothing: no report shows 1.  The threshold
    is that of binary32: with 80 frames the second report, 5/80, follows
    the first, 1/80, although the two numbers reported differ by less than
    0.05; their difference rounds to [0.05f].  And since the guard and the
    assignment of [last_progress] come before the lock, two calls that
    overlap, with the fractions 1/2 and 1, can both pass the guard and
    write their bars in the other order: 1/2 is reported after 1. *)
Lemma final_completion_not_reported :
  (exists s,
     run_batch 1 22 frames22 = Ok s /\
     length frames22 = 22%nat /\
     completed_frames s = 22%nat /\
     cout s = map (fun k => fraction k 22) [1; 3; 5; 7; 9; 11; 13; 15; 17; 19; 21]%Z /\
     last_progress s = fraction 21 22 /\
     fraction 22 22 = f32_of_int 1 /\
     SFltb (f32_sub (fraction 22 22) (last_progress s)) f32_threshold = true /\
     display_progress (fraction 22 22) s = s /\
     Forall (fun x => x <> f32_of_int 1) (cout s) /\
     map percent32 (cout s) = [4; 13; 22; 31; 40; 50; 59; 68; 77; 86; 95]%Z)
  /\ (exists s,
        run_batch 1 80 frames80 = Ok s /\
        take 2 (cout s) = [fraction 1 80; fraction 5 80] /\
        f32_sub (fraction 5 80) (fraction 1 80) = f32_threshold /\
        (f32_value (fraction 5 80) - f32_value (fraction 1 80) < 5 # 100)%Q)
  /\ (let s0 := initial_state 2 in
      let sa := set_last_progress (fraction 1 2) s0 in
      let sb := set_last_progress (fraction 2 2) sa in
      SFltb (f32_sub (fraction 1 2) (last_progress s0)) f32_threshold = false /\
      SFltb (f32_sub (fraction 2 2) (last_progress sa)) f32_threshold = false /\
      cout (write_bar (fraction 1 2) (write_bar (fraction 2 2) sb))
      = [fraction 2 2; fraction 1 2] /\
      f32_lt (fraction 1 2) (fraction 2 2)).
Proof.
  split; [|split].
  - eexists. split; [vm_compute; reflexivity|].
    cbn [completed_frames cout last_progress].
    split; [reflexivity|]. split; [reflexivity|].
    split; [vm_compute; reflexivity|]. split; [vm_compute; reflexivity|].
    split; [vm_compute; reflexivity|]. split; [vm_compute; reflexivity|].
    split; [vm_compute; reflexivity|].
    split; [repeat constructor; vm_compute; discriminate|].
    vm_compute. reflexivity.
  - eexists. split; [vm_compute; reflexivity|].
    cbn [cout]. split; [vm_compute; reflexivity|]. split; [vm_compute; reflexivity|].
    vm_compute. reflexivity.
  - cbv zeta. split; [vm_compute; reflexivity|]. split; [vm_compute; reflexivity|].
    split; [reflexivity|].
    split; [reflexivity|]. split; [reflexivity|]. right. split; [reflexivity|].
    vm_compute. reflexivity.
Qed.

(** C6, amended.  For calls of the progress bar that do not overlap, with a
    fraction that is a number: no report shows a fraction lower than an
    earlier one; a report is written only when the difference to the last
    reported fraction, computed in binary32, is not below [0.05f]; the
    fraction is then above the last reported one, by at least [f32_gap]
    (0.0499999988...) when both are finite, or both are the same infinity,
    as for [total_frames = 0]; below the threshold the call changes
    nothing.  The call at completion is not exempt: its fraction is exactly
    1 and goes through the same test; when it is written, the bar is fifty
    [=] and [100 %].  The order of the reports holds in every schedule of
    the workers, also when other workers count frames between a worker's
    count and its call. *)
Theorem progress_reports_threshold (progress : spec_float) (s : State) :
  is_nan progress = false ->
  report_inv s ->
  report_inv (display_progress progress s)
  /\ (forall i j x y, (i < j)%nat ->
        cout (display_progress progress s) !! i = Some x ->
        cout (display_progress progress s) !! j = Some y -> ~ f32_lt y x)
  /\ (SFltb (f32_sub progress (last_progress s)) f32_threshold = true ->
      display_progress progress s = s)
  /\ (SFltb (f32_sub progress (last_progress s)) f32_threshold = false ->
      cout (display_progress progress s) = (cout s ++ [progress])%list
      /\ last_progress (display_progress progress s) = progress
      /\ (f32_lt (last_progress s) progress
          \/ exists sg, progress = S754_infinity sg /\ last_progress s = S754_infinity sg)
      /\ (forall sp mp ep sl ml el,
            progress = S754_finite sp mp ep -> last_progress s = S754_finite sl ml el ->
            (f32_gap <= f32_value progress - f32_value (last_progress s))%Q))
  /\ ((4999999888 # 100000000000 < f32_gap)%Q /\ (f32_gap < 5 # 100)%Q
      /\ (5 # 100 < f32_value f32_threshold)%Q)
  /\ (exists s0, run_batch 1 0 two_frames = Ok s0
                  /\ cout s0 = [S754_infinity false; S754_infinity false])
  /\ (forall n, n <> 0%Z -> (- 2 ^ 31 <= n <= 2 ^ 31)%Z -> fraction n n = f32_of_int 1)
  /\ progress_bar (f32_of_int 1)
     = "[" ++ repeat_string 50 "=" ++ "] 100 " ++ String "%" (String "013"%char "")
  /\ (forall frames total_frames tasks n schedule c,
        (- 2 ^ 31 <= total_frames <= 2 ^ 31)%Z ->
        run_schedule frames total_frames schedule (initial_crew tasks n) = Some c ->
        report_inv (crew_state c)
        /\ forall i j x y, (i < j)%nat ->
             cout (crew_state c) !! i = Some x ->
             cout (crew_state c) !! j = Some y -> ~ f32_lt y x).
Proof.
  intros Hp Hinv. pose proof (display_progress_inv progress s Hp Hinv) as Hinv'.
  split; [exact Hinv'|].
  split; [apply sorted_never_lower, Hinv'|].
  split; [apply display_progress_quiet|].
  split.
  { intros Hguard. destruct (display_progress_report progress s Hguard) as [Hc Hl].
    split; [exact Hc|]. split; [exact Hl|].
    split; [apply guard_passed; [assumption|apply Hinv|assumption]|].
    intros sp mp ep sl ml el Hprogress Hlast. rewrite Hprogress, Hlast in *.
    now apply guard_gap. }
  split; [split; [|split]; vm_compute; reflexivity|].
  split; [eexists; split; [vm_compute; reflexivity|reflexivity]|].
  split; [apply fraction_complete|].
  split; [vm_compute; reflexivity|].
  intros frames total_frames tasks n schedule c Ht Hrun.
  assert (Hc : report_inv (crew_state c)).
  { apply (run_schedule_inv frames total_frames schedule Ht _ _ Hrun).
    apply initial_crew_inv. }
  split; [exact Hc|]. apply sorted_never_lower, Hc.
Qed.

Lemma progress_reports_threshold_witness :
  report_inv (display_progress (fraction 1 22) (initial_state 22))
  /\ (forall i j x y, (i < j)%nat ->
        cout (display_progress (fraction 1 22) (initial_state 22)) !! i = Some x ->
        cout (display_progress (fraction 1 22) (initial_state 22)) !! j = Some y ->
        ~ f32_lt y x)
  /\ (SFltb (f32_sub (fraction 1 22) (last_progress (initial_state 22))) f32_threshold = true ->
      display_progress (fraction 1 22) (initial_state 22) = initial_state 22)
  /\ (SFltb (f32_sub (fraction 1 22) (last_progress (initial_state 22))) f32_threshold = false ->
      cout (display_progress (fraction 1 22) (initial_state 22))
      = (cout (initial_state 22) ++ [fraction 1 22])%list
      /\ last_progress (display_progress (fraction 1 22) (initial_state 22)) = fraction 1 22
      /\ (f32_lt (last_progress (initial_state 22)) (fraction 1 22)
          \/ exists sg, fraction 1 22 = S754_infinity sg
                        /\ last_progress (initial_state 22) = S754_infinity sg)
      /\ (forall sp mp ep sl ml el,
            fraction 1 22 = S754_finite sp mp ep ->
            last_progress (initial_state 22) = S754_finite sl ml el ->
            (f32_gap <= f32_value (fraction 1 22)
                        - f32_value (last_progress (initial_state 22)))%Q))
  /\ ((4999999888 # 100000000000 < f32_gap)%Q /\ (f32_gap < 5 # 100)%Q
      /\ (5 # 100 < f32_value f32_threshold)%Q)
  /\ (exists s0, run_batch 1 0 two_frames = Ok s0
                  /\ cout s0 = [S754_infinity false; S754_infinity false])
  /\ (forall n, n <> 0%Z -> (- 2 ^ 31 <= n <= 2 ^ 31)%Z -> fraction n n = f32_of_int 1)
  /\ progress_bar (f32_of_int 1)
     = "[" ++ repeat_string 50 "=" ++ "] 100 " ++ String "%" (String "013"%char "")
  /\ (forall frames total_frames tasks n schedule c,
        (- 2 ^ 31 <= total_frames <= 2 ^ 31)%Z ->
        run_schedule frames total_frames schedule (initial_crew tasks n) = Some c ->
        report_inv (crew_state c)
        /\ forall i j x y, (i < j)%nat ->
             cout (crew_state c) !! i = Some x ->
             cout (crew_state c) !! j = Some y -> ~ f32_lt y x).
Proof.
  apply (progress_reports_threshold (fraction 1 22) (initial_state 22)).
  - reflexivity.
  - unfold report_inv. cbn [initial_state cout last_progress].
    split; [constructor|]. split; [constructor|]. split; [reflexivity|].
    split; [reflexivity|]. intros H. now destruct H.
Defined.

(* ===================================================================== *)
(** * Command line *)
(* ===================================================================== *)

(** Induction along the loop of [parse_arguments], which moves on by one
    argument or by two. *)
Lemma args_ind2 (P : list string -> Prop) :
  P [] ->
  (forall arg rest, P rest -> (forall value rest', rest = value :: rest' -> P rest') ->
                    P (arg :: rest)) ->
  forall args, P args.
Proof.
  intros Hnil Hcons args.
  enough (H : P args /\ (forall value rest', args = value :: rest' -> P rest')) by apply H.
  induction args as [|arg rest [IH1 IH2]].
  - split; [exact Hnil|]. intros value rest' Heq. discriminate.
  - split; [now apply Hcons|]. intros value rest' Heq. injection Heq as _ <-. exact IH1.
Qed.

Lemma well_spelled_other (text : string) :
  option_spelling text = false ->
  String.eqb text "--preload" = false /\ String.eqb text "-p" = false /\
  String.eqb text "--clear" = false /\ String.eqb text "-c" = false /\
  String.eqb text "--video" = false /\ String.eqb text "-v" = false.
Proof.
  unfold option_spelling. intros H.
  repeat (apply orb_false_elim in H; destruct H as [H ?]). repeat split; assumption.
Qed.

Lemma parse_loop_spell (o : cli_option) (rest : list string) (st : Args) :
  well_spelled o ->
  parse_loop (spell o ++ rest) st = parse_loop rest (apply_option st o).
Proof.
  destruct o as [[|]|[|]|[|] path|text]; intros Hok; try reflexivity.
  simpl in Hok. destruct (well_spelled_other text Hok) as (H1 & H2 & H3 & H4 & H5 & H6).
  cbn [spell app parse_loop apply_option]. now rewrite H1, H2, H3, H4, H5, H6.
Qed.

Lemma parse_loop_spell_all (os : list cli_option) (rest : list string) (st : Args) :
  Forall well_spelled os ->
  parse_loop (spell_all os ++ rest) st = parse_loop rest (fold_left apply_option os st).
Proof.
  intros Hok. revert st. induction Hok as [|o os Ho _ IH]; intros st; [reflexivity|].
  unfold spell_all. cbn [map concat fold_left]. rewrite <- app_assoc.
  rewrite parse_loop_spell by assumption. apply IH.
Qed.

Lemma parse_arguments_cons (program : string) (args : list string) (preload0 clear0 : bool) :
  parse_arguments (program :: args) preload0 clear0
  = let st := parse_loop args
                {| video_path := ""; preload := preload0; clear_screen := clear0 |} in
    (if String.eqb (video_path st) "" then None else Some (video_path st),
     preload st, clear_screen st).
Proof. reflexivity. Qed.

Lemma apply_options_flags (os : list cli_option) (st : Args) :
  (preload st = true -> preload (fold_left apply_option os st) = true) /\
  (clear_screen st = true -> clear_screen (fold_left apply_option os st) = true) /\
  (forall long, In (OptPreload long) os -> preload (fold_left apply_option os st) = true) /\
  (forall long, In (OptClear long) os -> clear_screen (fold_left apply_option os st) = true).
Proof.
  revert st. induction os as [|o os IH]; intros st.
  - repeat split; auto; intros long [].
  - cbn [fold_left]. destruct (IH (apply_option st o)) as (Hp & Hc & Hip & Hic).
    split; [|split; [|split]].
    + intros H. apply Hp. destruct o; simpl; auto.
    + intros H. apply Hc. destruct o; simpl; auto.
    + intros long [->|Hin]; [apply Hp; reflexivity|eauto].
    + intros long [->|Hin]; [apply Hc; reflexivity|eauto].
Qed.

Lemma apply_options_no_video (os : list cli_option) (st : Args) :
  Forall (fun o => forall long path, o <> OptVideo long path) os ->
  video_path (fold_left apply_option os st) = video_path st.
Proof.
  intros Hno. revert st. induction Hno as [|o os Ho _ IH]; intros st; [reflexivity|].
  cbn [fold_left]. rewrite IH. destruct o as [| |long path|]; try reflexivity.
  now destruct (Ho long path).
Qed.

(** X1. A command line written as a sequence of options, each in its long
    or its short spelling, with other arguments in between, is read as that
    sequence: every flag that occurs is set, flags that were set stay set,
    the last [--video] gives the path, and a path that is empty counts as
    none.  The value of [--video] is taken as it is, also when it looks like
    an option.  A [--video] or [-v] left without value at the end changes
    nothing. *)
Theorem parse_arguments_reads_options
  (program : string) (os : list cli_option) (preload0 clear0 : bool) :
  Forall well_spelled os ->
  let st := fold_left apply_option os
              {| video_path := ""; preload := preload0; clear_screen := clear0 |} in
  let expected := (if String.eqb (video_path st) "" then None else Some (video_path st),
                   preload st, clear_screen st) in
  parse_arguments (program :: spell_all os) preload0 clear0 = expected
  /\ parse_arguments (program :: spell_all os ++ ["--video"]) preload0 clear0 = expected
  /\ parse_arguments (program :: spell_all os ++ ["-v"]) preload0 clear0 = expected
  /\ (preload0 = true -> preload st = true)
  /\ (clear0 = true -> clear_screen st = true)
  /\ (forall long, In (OptPreload long) os -> preload st = true)
  /\ (forall long, In (OptClear long) os -> clear_screen st = true)
  /\ (forall os1 os2 long path,
        os = (os1 ++ OptVideo long path :: os2)%list ->
        Forall (fun o => forall long' path', o <> OptVideo long' path') os2 ->
        video_path st = path).
Proof.
  intros Hok st expected.
  assert (Hparse : forall rest,
             parse_loop (spell_all os ++ rest)
               {| video_path := ""; preload := preload0; clear_screen := clear0 |}
             = parse_loop rest st)
    by (intros rest; now apply parse_loop_spell_all).
  split.
  { pose proof (Hparse []) as H0. rewrite app_nil_r in H0.
    rewrite parse_arguments_cons, H0. reflexivity. }
  split; [rewrite parse_arguments_cons, Hparse; reflexivity|].
  split; [rewrite parse_arguments_cons, Hparse; reflexivity|].
  destruct (apply_options_flags os
              {| video_path := ""; preload := preload0; clear_screen := clear0 |})
    as (Hp & Hc & Hip & Hic).
  split; [exact Hp|]. split; [exact Hc|]. split; [exact Hip|]. split; [exact Hic|].
  intros os1 os2 long path -> Hno. unfold st.
  rewrite fold_left_app. cbn [fold_left]. now rewrite apply_options_no_video.
Qed.

Lemma parse_arguments_reads_options_witness :
  let os := [OptOther "extra"; OptVideo false "movie.mp4"; OptPreload true;
             OptVideo true "-p"; OptClear false] in
  let st := fold_left apply_option os
              {| video_path := ""; preload := false; clear_screen := false |} in
  let expected := (if String.eqb (video_path st) "" then None else Some (video_path st),
                   preload st, clear_screen st) in
  parse_arguments ("video2ascii" :: spell_all os) false false = expected
  /\ parse_arguments ("video2ascii" :: spell_all os ++ ["--video"]) false false = expected
  /\ parse_arguments ("video2ascii" :: spell_all os ++ ["-v"]) false false = expected
  /\ (false = true -> preload st = true)
  /\ (false = true -> clear_screen st = true)
  /\ (forall long, In (OptPreload long) os -> preload st = true)
  /\ (forall long, In (OptClear long) os -> clear_screen st = true)
  /\ (forall os1 os2 long path,
        os = (os1 ++ OptVideo long path :: os2)%list ->
        Forall (fun o => forall long' path', o <> OptVideo long' path') os2 ->
        video_path st = path).
Proof.
  apply (parse_arguments_reads_options "video2ascii"
           [OptOther "extra"; OptVideo false "movie.mp4"; OptPreload true;
            OptVideo true "-p"; OptClear false] false false).
  repeat constructor.
Defined.

Lemma spelling_cases (arg a b : string) :
  (String.eqb arg a || String.eqb arg b)%bool = true -> arg = a \/ arg = b.
Proof.
  intros H. apply orb_true_iff in H. destruct H as [H|H]; apply String.eqb_eq in H; auto.
Qed.

Lemma parse_loop_flags (args : list string) :
  forall st,
    (preload st = true -> preload (parse_loop args st) = true)
    /\ (clear_screen st = true -> clear_screen (parse_loop args st) = true)
    /\ (preload (parse_loop args st) = true ->
        preload st = true \/ In "--preload" args \/ In "-p" args)
    /\ (clear_screen (parse_loop args st) = true ->
        clear_screen st = true \/ In "--clear" args \/ In "-c" args).
Proof.
  induction args as [|arg rest IH1 IH2] using args_ind2; intros st.
  - simpl. tauto.
  - cbn [parse_loop].
    destruct (String.eqb arg "--preload" || String.eqb arg "-p")%bool eqn:Hp.
    { destruct (spelling_cases _ _ _ Hp) as [->| ->];
        destruct (IH1 {| video_path := video_path st; preload := true;
                         clear_screen := clear_screen st |}) as (H1 & H2 & H3 & H4);
        cbn [preload clear_screen In] in *;
        (split; [auto|split; [auto|split; [auto|]]]);
        intros H; destruct (H4 H) as [?|[?|?]]; auto. }
    destruct (String.eqb arg "--clear" || String.eqb arg "-c")%bool eqn:Hc.
    { destruct (spelling_cases _ _ _ Hc) as [->| ->];
        destruct (IH1 {| video_path := video_path st; preload := preload st;
                         clear_screen := true |}) as (H1 & H2 & H3 & H4);
        cbn [preload clear_screen In] in *;
        (split; [auto|split; [auto|split; [|auto]]]);
        intros H; destruct (H3 H) as [?|[?|?]]; auto. }
    destruct (String.eqb arg "--video" || String.eqb arg "-v")%bool eqn:Hv.
    { destruct rest as [|value rest']; [cbn [In]; tauto|].
      destruct (IH2 value rest' eq_refl
                  {| video_path := value; preload := preload st;
                     clear_screen := clear_screen st |}) as (H1 & H2 & H3 & H4).
      cbn [preload clear_screen In] in *.
      split; [auto|]. split; [auto|]. split.
      - intros H. destruct (H3 H) as [?|[?|?]]; auto.
      - intros H. destruct (H4 H) as [?|[?|?]]; auto. }
    destruct (IH1 st) as (H1 & H2 & H3 & H4). cbn [In].
    split; [auto|]. split; [auto|]. split.
    + intros H. destruct (H3 H) as [?|[?|?]]; auto.
    + intros H. destruct (H4 H) as [?|[?|?]]; auto.
Qed.

(** X2. Whatever the arguments, [parse_arguments] never clears a flag, and
    it sets a flag only when one of its spellings is among the arguments
    after the program name. *)
Theorem parse_arguments_flags (argv : list string) (preload0 clear0 : bool) :
  let preload1 := snd (fst (parse_arguments argv preload0 clear0)) in
  let clear1 := snd (parse_arguments argv preload0 clear0) in
  Bool.le preload0 preload1
  /\ Bool.le clear0 clear1
  /\ (preload1 = true ->
      preload0 = true \/ In "--preload" (drop 1 argv) \/ In "-p" (drop 1 argv))
  /\ (clear1 = true ->
      clear0 = true \/ In "--clear" (drop 1 argv) \/ In "-c" (drop 1 argv)).
Proof.
  unfold parse_arguments. cbn [fst snd].
  destruct (parse_loop_flags (drop 1 argv)
              {| video_path := ""; preload := preload0; clear_screen := clear0 |})
    as (H1 & H2 & H3 & H4).
  cbn [preload clear_screen] in *.
  split; [destruct preload0; [now rewrite H1|exact I]|].
  split; [destruct clear0; [now rewrite H2|exact I]|].
  split; assumption.
Qed.

Lemma parse_loop_path (args : list string) :
  forall st,
    video_path (parse_loop args st) = video_path st
    \/ exists before flag after,
         args = (before ++ flag :: video_path (parse_loop args st) :: after)%list
         /\ (flag = "--video" \/ flag = "-v").
Proof.
  induction args as [|arg rest IH1 IH2] using args_ind2; intros st.
  - now left.
  - cbn [parse_loop].
    assert (Hskip : forall st',
               video_path st' = video_path st ->
               video_path (parse_loop rest st') = video_path st
               \/ exists before flag after,
                    (arg :: rest)
                    = (before ++ flag :: video_path (parse_loop rest st') :: after)%list
                    /\ (flag = "--video" \/ flag = "-v")).
    { intros st' Hst'. destruct (IH1 st') as [Heq|(before & flag & after & Hargs & Hflag)].
      - left. congruence.
      - right. exists (arg :: before), flag, after. split; [|exact Hflag].
        rewrite Hargs at 1. reflexivity. }
    destruct (String.eqb arg "--preload" || String.eqb arg "-p")%bool; [now apply Hskip|].
    destruct (String.eqb arg "--clear" || String.eqb arg "-c")%bool; [now apply Hskip|].
    destruct (String.eqb arg "--video" || String.eqb arg "-v")%bool eqn:Hv;
      [|now apply Hskip].
    destruct rest as [|value rest']; [now left|].
    right.
    destruct (IH2 value rest' eq_refl
                {| video_path := value; preload := preload st;
                   clear_screen := clear_screen st |})
      as [Heq|(before & flag & after & Hargs & Hflag)].
    + exists [], arg, rest'. cbn [video_path] in Heq. rewrite Heq.
      split; [reflexivity|now apply spelling_cases].
    + exists (arg :: value :: before), flag, after. split; [|exact Hflag].
      rewrite Hargs at 1. reflexivity.
Qed.

(** X3. A path that [parse_arguments] returns is never empty and is the
    argument that follows a [--video] or [-v] on the command line; an
    argument in any other place is never taken as the path.  With no
    argument besides the program name nothing is returned. *)
Theorem parse_arguments_path (argv : list string) (preload0 clear0 : bool) (path : string) :
  fst (fst (parse_arguments argv preload0 clear0)) = Some path ->
  path <> ""
  /\ (exists before flag after,
        drop 1 argv = (before ++ flag :: path :: after)%list
        /\ (flag = "--video" \/ flag = "-v"))
  /\ (2 < length argv)%nat.
Proof.
  unfold parse_arguments. cbn [fst].
  set (st0 := {| video_path := ""; preload := preload0; clear_screen := clear0 |}).
  destruct (String.eqb (video_path (parse_loop (drop 1 argv) st0)) "") eqn:Hempty;
    [discriminate|].
  intros Hsome. injection Hsome as Hpath. apply String.eqb_neq in Hempty.
  destruct (parse_loop_path (drop 1 argv) st0) as [Heq|(before & flag & after & Hargs & Hflag)].
  - cbn [video_path st0] in Heq. congruence.
  - rewrite Hpath in Hargs. split; [congruence|].
    split; [exists before, flag, after; auto|].
    assert (Hlen : length (drop 1 argv) = length (before ++ flag :: path :: after))
      by now rewrite Hargs.
    rewrite length_drop, length_app in Hlen. simpl in Hlen. lia.
Qed.

Lemma parse_arguments_path_witness :
  "movie.mp4" <> ""
  /\ (exists before flag after,
        drop 1 ["video2ascii"; "-p"; "-v"; "movie.mp4"]
        = (before ++ flag :: "movie.mp4" :: after)%list
        /\ (flag = "--video" \/ flag = "-v"))
  /\ (2 < length ["video2ascii"; "-p"; "-v"; "movie.mp4"])%nat.
Proof.
  apply (parse_arguments_path ["video2ascii"; "-p"; "-v"; "movie.mp4"] false false).
  reflexivity.
Defined.

(* ===================================================================== *)
(** * Reading a glyph unit back *)
(* ===================================================================== *)

Lemma read_digits_uchar (c : Byte.byte) (sep : ascii) (rest : string) :
  is_digit sep = false ->
  read_digits 0 (to_string (int_of_uchar c) ++ String sep rest)
  = (int_of_uchar c, String sep rest).
Proof.
  intros Hsep. destruct c; cbn; rewrite Hsep; reflexivity.
Qed.

Lemma expect_head (c : ascii) (s : string) : expect c (String c s) = Some s.
Proof. simpl. now rewrite Ascii.eqb_refl. Qed.

Lemma expect_all_prefix (p s : string) : expect_all p (p ++ s) = Some s.
Proof.
  induction p as [|c p IH]; [reflexivity|].
  cbn [expect_all String.append]. now rewrite expect_head.
Qed.

Lemma decode_unit_apply_color (pixel : Vec3b) :
  decode_unit (apply_color_to_ascii pixel)
  = Some (int_of_uchar (vec_at pixel 2), int_of_uchar (vec_at pixel 1),
          int_of_uchar (vec_at pixel 0),
          pixel_to_ascii (double_of_int (int_of_uchar (vec_at pixel 2)
                                         + int_of_uchar (vec_at pixel 1)
                                         + int_of_uchar (vec_at pixel 0)) / 3)%float).
Proof.
  unfold apply_color_to_ascii, decode_unit. cbv zeta.
  repeat rewrite append_assoc.
  rewrite expect_all_prefix.
  cbn [String.append].
  rewrite read_digits_uchar by reflexivity. rewrite expect_head.
  rewrite read_digits_uchar by reflexivity. rewrite expect_head.
  rewrite read_digits_uchar by reflexivity. reflexivity.
Qed.

Lemma int_of_uchar_inj (c d : Byte.byte) : int_of_uchar c = int_of_uchar d -> c = d.
Proof.
  unfold int_of_uchar. intros H. apply N2Z.inj in H.
  apply (f_equal Byte.of_N) in H. rewrite !Byte.of_to_N in H. now injection H.
Qed.

(** X4. The colour encoder is injective: two different pixels never give the
    same glyph unit, and the three channels can be read back from the unit,
    in the order red, green, blue, with the glyph after them. *)
Theorem apply_color_to_ascii_injective (pixel pixel' : Vec3b) :
  apply_color_to_ascii pixel = apply_color_to_ascii pixel' ->
  pixel = pixel'
  /\ decode_unit (apply_color_to_ascii pixel)
     = Some (int_of_uchar (val2 pixel), int_of_uchar (val1 pixel), int_of_uchar (val0 pixel),
             spec_glyph (mean3 (int_of_uchar (val2 pixel)) (int_of_uchar (val1 pixel))
                           (int_of_uchar (val0 pixel)))).
Proof.
  intros Heq. split.
  - apply (f_equal decode_unit) in Heq. rewrite !decode_unit_apply_color in Heq.
    injection Heq as H2 H1 H0 _.
    destruct pixel as [a0 a1 a2], pixel' as [b0 b1 b2]. cbn [vec_at val0 val1 val2] in *.
    apply int_of_uchar_inj in H2, H1, H0. congruence.
  - rewrite decode_unit_apply_color. destruct pixel as [a0 a1 a2].
    cbn [vec_at val0 val1 val2]. unfold mean3.
    now rewrite pixel_to_ascii_mean by apply channel_sum_range.
Qed.

Lemma apply_color_to_ascii_injective_witness :
  mkVec3b Byte.x4d Byte.x00 Byte.xff = mkVec3b Byte.x4d Byte.x00 Byte.xff
  /\ decode_unit (apply_color_to_ascii (mkVec3b Byte.x4d Byte.x00 Byte.xff))
     = Some (int_of_uchar (val2 (mkVec3b Byte.x4d Byte.x00 Byte.xff)),
             int_of_uchar (val1 (mkVec3b Byte.x4d Byte.x00 Byte.xff)),
             int_of_uchar (val0 (mkVec3b Byte.x4d Byte.x00 Byte.xff)),
             spec_glyph (mean3 (int_of_uchar (val2 (mkVec3b Byte.x4d Byte.x00 Byte.xff)))
                           (int_of_uchar (val1 (mkVec3b Byte.x4d Byte.x00 Byte.xff)))
                           (int_of_uchar (val0 (mkVec3b Byte.x4d Byte.x00 Byte.xff))))).
Proof.
  apply (apply_color_to_ascii_injective (mkVec3b Byte.x4d Byte.x00 Byte.xff)
           (mkVec3b Byte.x4d Byte.x00 Byte.xff)).
  reflexivity.
Defined.

(* ===================================================================== *)
(** * Size of the text *)
(* ===================================================================== *)

Lemma string_length_app (s t : string) :
  String.length (s ++ t) = (String.length s + String.length t)%nat.
Proof. induction s as [|c s IH]; simpl; [reflexivity|now rewrite IH]. Qed.

Lemma to_string_uchar_length (c : Byte.byte) :
  (1 <= String.length (to_string (int_of_uchar c)) <= 3)%nat.
Proof. destruct c; vm_compute; split; repeat constructor. Qed.

Lemma apply_color_to_ascii_length (pixel : Vec3b) :
  String.length (apply_color_to_ascii pixel)
  = (11 + String.length (to_string (int_of_uchar (vec_at pixel 2)))
     + String.length (to_string (int_of_uchar (vec_at pixel 1)))
     + String.length (to_string (int_of_uchar (vec_at pixel 0))))%nat.
Proof.
  unfold apply_color_to_ascii. cbv zeta.
  repeat first [rewrite string_length_app | progress cbn [String.length String.append]].
  lia.
Qed.

Lemma concat_strings_length_bounds (lo hi : nat) (l : list string) :
  Forall (fun s => lo <= String.length s <= hi)%nat l ->
  (lo * length l <= String.length (concat_strings l) <= hi * length l)%nat.
Proof.
  induction 1 as [|s l Hs _ IH]; simpl; [lia|].
  rewrite string_length_app. lia.
Qed.

(** X5. A glyph unit takes between 14 and 20 bytes, so the text of a frame
    of H rows and W columns takes between H * (14 * W + 1) and
    H * (20 * W + 1) bytes. *)
Theorem convert_frame_to_ascii_size (frame : Mat) (pixel : Vec3b) :
  (14 <= String.length (apply_color_to_ascii pixel) <= 20)%nat
  /\ (rows frame * (14 * cols frame + 1)
      <= String.length (convert_frame_to_ascii frame)
      <= rows frame * (20 * cols frame + 1))%nat.
Proof.
  assert (Hunit : forall p, (14 <= String.length (apply_color_to_ascii p) <= 20)%nat).
  { intros p. rewrite apply_color_to_ascii_length.
    pose proof (to_string_uchar_length (vec_at p 2)).
    pose proof (to_string_uchar_length (vec_at p 1)).
    pose proof (to_string_uchar_length (vec_at p 0)). lia. }
  split; [apply Hunit|].
  rewrite convert_frame_to_ascii_rows.
  pose proof (concat_strings_length_bounds (14 * cols frame + 1) (20 * cols frame + 1)
                (map (fun s => s ++ String newline "")
                     (map (row_text frame) (seq 0 (rows frame))))) as Hb.
  rewrite !length_map, length_seq in Hb.
  rewrite (Nat.mul_comm (rows frame) (14 * cols frame + 1)).
  rewrite (Nat.mul_comm (rows frame) (20 * cols frame + 1)).
  apply Hb. apply Forall_map, Forall_map, Forall_forall. intros i _. cbn beta.
  rewrite string_length_app. cbn [String.length].
  pose proof (concat_strings_length_bounds 14 20 (row_units frame i)) as Hrow.
  rewrite row_units_length in Hrow. unfold row_text.
  assert (Hall : Forall (fun s => 14 <= String.length s <= 20)%nat (row_units frame i)).
  { unfold row_units. apply Forall_map, Forall_forall. intros j _. apply Hunit. }
  specialize (Hrow Hall). lia.
Qed.

(* ===================================================================== *)
(** * The text of the progress bar *)
(* ===================================================================== *)

Lemma repeat_string_length (n : nat) (c : ascii) :
  String.length (repeat_string n (String c "")) = n.
Proof. induction n as [|n IH]; simpl; [reflexivity|now rewrite IH]. Qed.

Lemma repeat_string_map {A : Type} (s : string) (l : list A) :
  concat_strings (map (fun _ => s) l) = repeat_string (length l) s.
Proof. induction l as [|x l IH]; simpl; [reflexivity|now rewrite IH]. Qed.

(** The loop that draws the 50 cells, in closed form. *)
Lemma bar_loop_cells (pos : Z) :
  for_range 0 (Z.to_nat bar_width)
    (fun i bar => bar ++ (if (Z.of_nat i <? pos)%Z then "="
                          else if (Z.of_nat i =? pos)%Z then ">" else " "))
    ""
  = bar_cells pos.
Proof.
  unfold for_range, bar_cells. rewrite for_loop_append. cbn [String.append].
  change (Z.to_nat bar_width - 0)%nat with 50%nat.
  destruct (Z.ltb_spec pos 0) as [Hneg|Hnn].
  - rewrite (map_ext_in _ (fun _ => " ")).
    + now rewrite repeat_string_map.
    + intros i _. destruct (Z.ltb_spec (Z.of_nat i) pos); [lia|].
      destruct (Z.eqb_spec (Z.of_nat i) pos); [lia|reflexivity].
  - destruct (Z.ltb_spec pos 50) as [Hlt|Hge].
    + apply String.eqb_eq.
      apply (Z_range_forall_spec 50
               (fun pos =>
                  String.eqb
                    (concat_strings
                       (map (fun i => if (Z.of_nat i <? pos)%Z then "="
                                      else if (Z.of_nat i =? pos)%Z then ">" else " ")
                            (seq 0 50)))
                    (repeat_string (Z.to_nat pos) "=" ++ ">"
                       ++ repeat_string (49 - Z.to_nat pos) " "))).
      * vm_compute. reflexivity.
      * lia.
    + rewrite (map_ext_in _ (fun _ => "=")).
      * now rewrite repeat_string_map.
      * intros i Hi. apply in_seq in Hi.
        destruct (Z.ltb_spec (Z.of_nat i) pos); [reflexivity|lia].
Qed.

Lemma bar_cells_length (pos : Z) : String.length (bar_cells pos) = 50%nat.
Proof.
  unfold bar_cells.
  destruct (Z.ltb_spec pos 0); [apply repeat_string_length|].
  destruct (Z.ltb_spec pos 50); [|apply repeat_string_length].
  rewrite !string_length_app, !repeat_string_length. cbn [String.length]. lia.
Qed.

Lemma fits_int_range (x : spec_float) :
  fits_int x = true -> (INT_MIN <= trunc_spec x <= INT_MAX)%Z.
Proof.
  destruct x as [sx|sx| |sx mx ex]; try discriminate.
  - intros _. unfold INT_MIN, INT_MAX. cbn [trunc_spec]. lia.
  - unfold fits_int. intros H. apply andb_true_iff in H. lia.
Qed.

(** X6. For a fraction whose products with 50 and with 100, computed in
    binary32, fit an [int], the bar that [display_progress] draws has
    exactly 50 cells between its brackets: [=] up to the position
    [50 * progress] (truncated), one [>] at the position when it lies in
    0..49, blanks after it; then the truncated percentage, [ %] and a
    carriage return.  A position of 50 or more fills the bar without a [>],
    a negative one leaves it blank.  Position and percentage are those of
    binary32: the fraction 53/100 is drawn with 26 [=] and shown as 52 %. *)
Theorem progress_bar_shape (progress : spec_float) :
  fits_int (f32_mul (f32_of_int bar_width) progress) = true ->
  fits_int (f32_mul progress (f32_of_int 100)) = true ->
  progress_bar progress
  = "[" ++ bar_cells (bar_position progress) ++ "] " ++ to_string (percent32 progress)
      ++ String " " (String "%" (String "013"%char ""))
  /\ (INT_MIN <= bar_position progress <= INT_MAX)%Z
  /\ (INT_MIN <= percent32 progress <= INT_MAX)%Z
  /\ String.length (bar_cells (bar_position progress)) = 50%nat
  /\ count_char ">" (bar_cells (bar_position progress))
     = (if ((0 <=? bar_position progress) && (bar_position progress <? 50))%Z then 1 else 0)%nat
  /\ count_char "=" (bar_cells (bar_position progress))
     = Z.to_nat (Z.min (bar_position progress) 50)
  /\ bar_cells (bar_position progress)
     = (if (bar_position progress <? 0)%Z then repeat_string 50 " "
        else if (bar_position progress <? 50)%Z then
          repeat_string (Z.to_nat (bar_position progress)) "=" ++ ">"
            ++ repeat_string (49 - Z.to_nat (bar_position progress)) " "
        else repeat_string 50 "=")
  /\ progress_bar (fraction 53 100)
     = "[" ++ repeat_string 26 "=" ++ ">" ++ repeat_string 23 " " ++ "] 52 "
         ++ String "%" (String "013"%char "").
Proof.
  intros Hpos Hpercent. set (pos := bar_position progress).
  split; [unfold progress_bar; cbv zeta; fold pos; now rewrite bar_loop_cells|].
  split; [apply fits_int_range, Hpos|].
  split; [apply fits_int_range, Hpercent|].
  split; [apply bar_cells_length|].
  split; [|split; [|split; [reflexivity|vm_compute; reflexivity]]].
  - unfold bar_cells. destruct (Z.ltb_spec pos 0) as [Hneg|Hnn].
    + destruct (Z.leb_spec 0 pos); [lia|]. reflexivity.
    + destruct (Z.leb_spec 0 pos); [|lia]. cbn [andb].
      destruct (Z.ltb_spec pos 50) as [Hlt|Hge]; [|reflexivity].
      apply Nat.eqb_eq.
      apply (Z_range_forall_spec 50
               (fun pos => Nat.eqb (count_char ">"
                     (repeat_string (Z.to_nat pos) "=" ++ ">"
                        ++ repeat_string (49 - Z.to_nat pos) " ")) 1));
        [vm_compute; reflexivity|lia].
  - unfold bar_cells. destruct (Z.ltb_spec pos 0) as [Hneg|Hnn].
    + rewrite Z.min_l by lia. now rewrite Z2Nat.nonpos by lia.
    + destruct (Z.ltb_spec pos 50) as [Hlt|Hge].
      * rewrite Z.min_l by lia. apply Nat.eqb_eq.
        apply (Z_range_forall_spec 50
                 (fun pos => Nat.eqb (count_char "="
                       (repeat_string (Z.to_nat pos) "=" ++ ">"
                          ++ repeat_string (49 - Z.to_nat pos) " ")) (Z.to_nat pos)));
          [vm_compute; reflexivity|lia].
      * rewrite Z.min_r by lia. reflexivity.
Qed.

Lemma progress_bar_shape_witness :
  progress_bar (fraction 53 100)
  = "[" ++ bar_cells (bar_position (fraction 53 100)) ++ "] "
      ++ to_string (percent32 (fraction 53 100))
      ++ String " " (String "%" (String "013"%char ""))
  /\ (INT_MIN <= bar_position (fraction 53 100) <= INT_MAX)%Z
  /\ (INT_MIN <= percent32 (fraction 53 100) <= INT_MAX)%Z
  /\ String.length (bar_cells (bar_position (fraction 53 100))) = 50%nat
  /\ count_char ">" (bar_cells (bar_position (fraction 53 100)))
     = (if ((0 <=? bar_position (fraction 53 100))
            && (bar_position (fraction 53 100) <? 50))%Z then 1 else 0)%nat
  /\ count_char "=" (bar_cells (bar_position (fraction 53 100)))
     = Z.to_nat (Z.min (bar_position (fraction 53 100)) 50)
  /\ bar_cells (bar_position (fraction 53 100))
     = (if (bar_position (fraction 53 100) <? 0)%Z then repeat_string 50 " "
        else if (bar_position (fraction 53 100) <? 50)%Z then
          repeat_string (Z.to_nat (bar_position (fraction 53 100))) "=" ++ ">"
            ++ repeat_string (49 - Z.to_nat (bar_position (fraction 53 100))) " "
        else repeat_string 50 "=")
  /\ progress_bar (fraction 53 100)
     = "[" ++ repeat_string 26 "=" ++ ">" ++ repeat_string 23 " " ++ "] 52 "
         ++ String "%" (String "013"%char "").
Proof.
  apply (progress_bar_shape (fraction 53 100)); reflexivity.
Defined.

(* ===================================================================== *)
(** * One worker: its range and its count *)
(* ===================================================================== *)

Lemma process_frame_effect frames total_frames (i : nat) (s s' : State) :
  process_frame frames total_frames i s = Ok s' ->
  completed_frames s' = S (completed_frames s)
  /\ length (ascii_frames s') = length (ascii_frames s)
  /\ (forall j, j <> i -> ascii_frames s' !! j = ascii_frames s !! j).
Proof.
  unfold process_frame. intros Hrun.
  destruct (count_frame frames i s) as [s1| |] eqn:Hcount; try discriminate.
  cbn [mbind result_mbind result_bind] in Hrun. injection Hrun as <-.
  destruct (count_frame_effect _ _ _ _ Hcount) as (Hc & Hlen & Hslots & _).
  unfold show_progress.
  destruct (display_progress_frames
              (fraction (Z.of_nat (completed_frames s1)) total_frames) s1) as [Hf Hc'].
  rewrite Hf, Hc'. now repeat split.
Qed.

Lemma process_frame_out_of_range frames total_frames (i : nat) (s : State) :
  (length frames <= i)%nat -> process_frame frames total_frames i s = OutOfRange.
Proof.
  intros Hi. unfold process_frame, count_frame. now rewrite lookup_ge_None_2 by assumption.
Qed.

Lemma process_frame_no_division frames total_frames (i : nat) (s : State) :
  process_frame frames total_frames i s <> DivisionByZero.
Proof.
  unfold process_frame, count_frame. destruct (frames !! i); [|discriminate].
  destruct (decide _); discriminate.
Qed.

Lemma process_loop_no_division frames total_frames (n start : nat) (s : State) :
  for_loop n start (fun i r => r ≫= process_frame frames total_frames i) (Ok s)
  <> DivisionByZero.
Proof.
  induction n as [|n IH]; [discriminate|].
  rewrite for_loop_snoc.
  destruct (for_loop n start _ (Ok s)) as [s1| |]; [|congruence|discriminate].
  apply process_frame_no_division.
Qed.

Lemma process_loop_untouched frames total_frames (n start : nat) (s s' : State) :
  for_loop n start (fun i r => r ≫= process_frame frames total_frames i) (Ok s) = Ok s' ->
  forall j, ~ (start <= j < start + n)%nat -> ascii_frames s' !! j = ascii_frames s !! j.
Proof.
  revert s'. induction n as [|n IH]; intros s' Hrun j Hj.
  - simpl in Hrun. now injection Hrun as <-.
  - rewrite for_loop_snoc in Hrun.
    destruct (for_loop n start _ (Ok s)) as [s1| |]; [|discriminate|discriminate].
    cbn [mbind result_mbind result_bind] in Hrun.
    destruct (process_frame_effect _ _ _ _ _ Hrun) as (_ & _ & Hslots).
    rewrite Hslots by lia. apply IH; [reflexivity|lia].
Qed.

(** X7. A call of [process_frames] whose range lies inside the batch
    converts exactly the frames of its range: afterwards every slot of the
    range holds its frame's text, every slot outside the range is as it was,
    and the counter has grown by the size of the range.  A range that is not
    empty and ends beyond the batch runs into an access out of range. *)
Theorem process_frames_range
  (frames : list Mat) (total_frames : Z) (start end_ : nat) (s : State) :
  length (ascii_frames s) = length frames ->
  ((end_ <= start \/ end_ <= length frames)%nat ->
     exists s', process_frames start end_ frames total_frames s = Ok s'
                /\ length (ascii_frames s') = length frames
                /\ (forall j, (start <= j < end_)%nat ->
                      ascii_frames s' !! j = convert_frame_to_ascii <$> frames !! j)
                /\ (forall j, ~ (start <= j < end_)%nat ->
                      ascii_frames s' !! j = ascii_frames s !! j)
                /\ completed_frames s' = (completed_frames s + (end_ - start))%nat)
  /\ ((start < end_)%nat -> (length frames < end_)%nat ->
      process_frames start end_ frames total_frames s = OutOfRange).
Proof.
  intros Hlen. split.
  - intros Hrange.
    assert (Hn : (start + (end_ - start) <= length frames \/ end_ - start = 0)%nat) by lia.
    destruct (decide (end_ - start = 0)%nat) as [Hz|Hnz].
    + exists s. unfold process_frames, for_range. rewrite Hz. cbn [for_loop].
      split; [reflexivity|]. split; [assumption|].
      split; [intros j Hj; lia|]. split; [reflexivity|lia].
    + destruct (process_frames_inv frames total_frames start end_ s)
        as (s' & Hrun & Hlen' & Hconv & _ & Hcount); [lia|assumption|].
      exists s'. split; [exact Hrun|]. split; [exact Hlen'|].
      split; [exact Hconv|]. split; [|exact Hcount].
      intros j Hj. unfold process_frames, for_range in Hrun.
      apply (process_loop_untouched _ _ _ _ _ _ Hrun). lia.
  - intros Hlt Hbeyond. unfold process_frames, for_range.
    replace (end_ - start)%nat with (S (end_ - start - 1)) by lia.
    rewrite for_loop_snoc.
    pose proof (process_loop_no_division frames total_frames (end_ - start - 1) start s)
      as Hnd.
    destruct (for_loop (end_ - start - 1) start _ (Ok s)) as [s1| |];
      [|congruence|reflexivity].
    cbn [mbind result_mbind result_bind]. apply process_frame_out_of_range. lia.
Qed.

Lemma process_frames_range_witness :
  ((1 <= 0 \/ 1 <= length two_frames)%nat ->
     exists s', process_frames 0 1 two_frames 2 (initial_state 2) = Ok s'
                /\ length (ascii_frames s') = length two_frames
                /\ (forall j, (0 <= j < 1)%nat ->
                      ascii_frames s' !! j = convert_frame_to_ascii <$> two_frames !! j)
                /\ (forall j, ~ (0 <= j < 1)%nat ->
                      ascii_frames s' !! j = ascii_frames (initial_state 2) !! j)
                /\ completed_frames s' = (completed_frames (initial_state 2) + (1 - 0))%nat)
  /\ ((0 < 1)%nat -> (length two_frames < 1)%nat ->
      process_frames 0 1 two_frames 2 (initial_state 2) = OutOfRange).
Proof.
  apply (process_frames_range two_frames 2 0 1 (initial_state 2)). reflexivity.
Defined.

(* ===================================================================== *)
(** * The counter and the reports across schedules *)
(* ===================================================================== *)

Lemma steps_counter frames total_frames (tasks : list Task) (n : nat) (p : Pool) :
  steps frames total_frames (initial_pool tasks n) p ->
  (completed_frames (shared p) + remaining p)%nat = remaining (initial_pool tasks n).
Proof.
  intros Hsteps. remember (initial_pool tasks n) as p0 eqn:Hp0.
  induction Hsteps as [p|p q r _ IH Hstep]; [subst p; reflexivity|].
  specialize (IH Hp0). pose proof (step_remaining _ _ _ _ Hstep) as Hrem.
  destruct Hstep as [q k th s' _ _ Hproc].
  destruct (process_frame_effect _ _ _ _ _ Hproc) as (Hc & _). cbn [shared] in *. lia.
Qed.

Lemma sum_list_const (c : nat) (l : list nat) (f : nat -> nat) :
  Forall (fun i => f i = c) l -> sum_list (map f l) = (c * length l)%nat.
Proof. induction 1 as [|i l Hi _ IH]; simpl; [lia|]. rewrite Hi, IH. lia. Qed.

Lemma spawn_remaining (n w : nat) :
  (0 < w)%nat ->
  remaining (initial_pool (map (nth_task n w) (seq 0 w)) n) = n.
Proof.
  intros Hw. unfold remaining, initial_pool. cbn [threads].
  rewrite !map_map. cbn [thread_of_task th_i th_end].
  replace w with (w - 1 + 1)%nat at 1 by lia.
  rewrite seq_app, map_app, sum_list_with_app. cbn [seq map sum_list_with id].
  rewrite (sum_list_const (n / w)).
  - rewrite length_seq. unfold nth_task. cbn [t_start t_end].
    rewrite Nat.eqb_refl. pose proof (chunk_bound n w Hw). lia.
  - apply Forall_forall. intros i Hi. apply elem_of_seq in Hi. unfold nth_task.
    cbn [t_start t_end]. destruct (Nat.eqb_spec i (w - 1)); [lia|]. lia.
Qed.

Lemma finished_remaining (p : Pool) : finished p -> remaining p = 0%nat.
Proof.
  unfold finished, remaining. induction 1 as [|th l Hth _ IH]; [reflexivity|].
  cbn [map sum_list_with id]. rewrite IH. lia.
Qed.

(** X8. In every schedule of a batch of N frames with W > 0 threads, the
    frames counted in [completed_frames] and the frames still to convert add
    up to N: a frame is counted exactly once, the counter never exceeds N,
    and it is N once all threads are finished. *)
Theorem completed_frames_counts_every_frame
  (num_threads : nat) (total_frames : Z) (frames : list Mat) (p : Pool) :
  (0 < num_threads)%nat ->
  steps frames total_frames
    (initial_pool (map (nth_task (length frames) num_threads) (seq 0 num_threads))
       (length frames)) p ->
  (completed_frames (shared p) + remaining p)%nat = length frames
  /\ (completed_frames (shared p) <= length frames)%nat
  /\ (finished p -> completed_frames (shared p) = length frames)
  /\ (forall q, step frames total_frames p q ->
        completed_frames (shared q) = S (completed_frames (shared p)))
  /\ exists s, run_batch num_threads total_frames frames = Ok s
               /\ completed_frames s = length frames.
Proof.
  intros Hw Hsteps.
  pose proof (steps_counter _ _ _ _ _ Hsteps) as Hsum.
  rewrite spawn_remaining in Hsum by assumption.
  split; [exact Hsum|]. split; [lia|].
  split; [intros Hfin; rewrite (finished_remaining p Hfin) in Hsum; lia|].
  split.
  { intros q Hstep. destruct Hstep as [p' k th s' _ _ Hproc].
    now destruct (process_frame_effect _ _ _ _ _ Hproc) as (Hc & _). }
  destruct (run_batch_ok frames total_frames num_threads Hw) as (s & Hrun & _).
  exists s. split; [exact Hrun|].
  destruct (run_batch_schedule frames total_frames num_threads s Hrun)
    as (tasks & q & Hspawn & Hq & Hfin & <-).
  rewrite spawn_tasks in Hspawn by assumption. injection Hspawn as <-.
  pose proof (steps_counter _ _ _ _ _ Hq) as Hsumq.
  rewrite spawn_remaining, (finished_remaining q Hfin) in Hsumq by assumption. lia.
Qed.

Lemma completed_frames_counts_every_frame_witness :
  (completed_frames (shared (initial_pool (map (nth_task (length two_frames) 3) (seq 0 3))
                                          (length two_frames)))
   + remaining (initial_pool (map (nth_task (length two_frames) 3) (seq 0 3))
                             (length two_frames)))%nat = length two_frames
  /\ (completed_frames (shared (initial_pool (map (nth_task (length two_frames) 3) (seq 0 3))
                                             (length two_frames)))
      <= length two_frames)%nat
  /\ (finished (initial_pool (map (nth_task (length two_frames) 3) (seq 0 3))
                             (length two_frames)) ->
      completed_frames (shared (initial_pool (map (nth_task (length two_frames) 3) (seq 0 3))
                                             (length two_frames)))
      = length two_frames)
  /\ (forall q, step two_frames 2
                  (initial_pool (map (nth_task (length two_frames) 3) (seq 0 3))
                                (length two_frames)) q ->
        completed_frames (shared q)
        = S (completed_frames (shared (initial_pool
                                         (map (nth_task (length two_frames) 3) (seq 0 3))
                                         (length two_frames)))))
  /\ exists s, run_batch 3 2 two_frames = Ok s /\ completed_frames s = length two_frames.
Proof.
  apply (completed_frames_counts_every_frame 3 2 two_frames
           (initial_pool (map (nth_task (length two_frames) 3) (seq 0 3))
                         (length two_frames))).
  - lia.
  - apply steps_refl.
Defined.

(** X9. The progress reports depend on the schedule.  With two frames and
    two workers, each with one frame, when one worker counts and shows
    before the other starts, the reports are 1/2 and 1; when both count
    before either shows, both load the counter 2, the first call reports 1
    and the second is below the threshold: the report of 1/2 is never
    written.  The converted frames and the counter are the same in both
    runs. *)
Theorem progress_reports_depend_on_schedule :
  exists c1 c2,
    spawn 2 2 = Ok (map (nth_task 2 2) (seq 0 2))
    /\ run_schedule two_frames 2 [0; 0; 1; 1]%nat
      (initial_crew (map (nth_task 2 2) (seq 0 2)) 2) = Some c1
    /\ run_schedule two_frames 2 [0; 1; 0; 1]%nat
         (initial_crew (map (nth_task 2 2) (seq 0 2)) 2) = Some c2
    /\ all_done c1 /\ all_done c2
    /\ ascii_frames (crew_state c1) = map convert_frame_to_ascii two_frames
    /\ ascii_frames (crew_state c2) = map convert_frame_to_ascii two_frames
    /\ completed_frames (crew_state c1) = 2%nat
    /\ completed_frames (crew_state c2) = 2%nat
    /\ cout (crew_state c1) = [fraction 1 2; fraction 2 2]
    /\ cout (crew_state c2) = [fraction 2 2]
    /\ map percent32 (cout (crew_state c1)) = [50; 100]%Z
    /\ map percent32 (cout (crew_state c2)) = [100]%Z.
Proof.
  eexists. eexists. split; [reflexivity|].
  split; [vm_compute; reflexivity|]. split; [vm_compute; reflexivity|].
  split; [repeat constructor|]. split; [repeat constructor|].
  cbn [crew_state ascii_frames completed_frames cout].
  split; [vm_compute; reflexivity|]. split; [vm_compute; reflexivity|].
  split; [reflexivity|]. split; [reflexivity|].
  split; [vm_compute; reflexivity|]. split; [vm_compute; reflexivity|].
  split; vm_compute; reflexivity.
Qed.

(* ===================================================================== *)
(** * Playback and the two modes *)
(* ===================================================================== *)



Lemma display_ascii_video_pauses (ascii_frames : list string) (clear : bool)
  (frame_rate : spec_float) (t : Terminal) :
  pauses (display_ascii_video ascii_frames clear frame_rate t)
  = (pauses t ++ replicate (length ascii_frames) (frame_pause frame_rate))%list.
Proof.
  unfold display_ascii_video. revert t.
  induction ascii_frames as [|frame l IH]; intros t; cbn [fold_left length replicate].
  - now rewrite app_nil_r.
  - rewrite IH. cbn [pauses]. now rewrite <- app_assoc.
Qed.




Lemma Z_forall_from_spec (P : Z -> bool) (count : nat) :
  forall z, Z_forall_from P z count = true ->
            forall x, (z <= x < z + Z.of_nat count)%Z -> P x = true.
Proof.
  induction count as [|count IH]; intros z Hall x Hx; [lia|].
  cbn [Z_forall_from] in Hall. apply andb_true_iff in Hall. destruct Hall as [Hz Hrest].
  destruct (Z.eq_dec x z) as [->|Hne]; [exact Hz|].
  apply (IH (z + 1)%Z Hrest). lia.
Qed.

(** X12. For a whole-numbered frame rate r from 1 to 2000 the pause after
    each frame is 1000 / r milliseconds rounded down (0 above 1000 frames
    per second), so the pauses never add up to more than the video lasts;
    playing N frames takes N such pauses. *)
Theorem playback_pause (r : Z) (ascii_frames : list string) (clear : bool) (t : Terminal) :
  (1 <= r <= 2000)%Z ->
  frame_pause (f32_of_int r) = (1000 / r)%Z
  /\ (r * frame_pause (f32_of_int r) <= 1000)%Z
  /\ (1000 < r * (frame_pause (f32_of_int r) + 1))%Z
  /\ pauses (display_ascii_video ascii_frames clear (f32_of_int r) t)
     = (pauses t ++ replicate (length ascii_frames) (1000 / r)%Z)%list.
Proof.
  intros Hr.
  assert (Hpause : frame_pause (f32_of_int r) = (1000 / r)%Z).
  { apply Z.eqb_eq.
    apply (Z_forall_from_spec
             (fun r => (frame_pause (f32_of_int r) =? 1000 / r)%Z) 2000 1);
      [vm_compute; reflexivity|lia]. }
  split; [exact Hpause|]. rewrite display_ascii_video_pauses, Hpause.
  pose proof (Z.mul_div_le 1000 r ltac:(lia)).
  pose proof (Z.mul_succ_div_gt 1000 r ltac:(lia)).
  split; [lia|]. split; [lia|reflexivity].
Qed.

Lemma playback_pause_witness :
  frame_pause (f32_of_int 30) = (1000 / 30)%Z
  /\ (30 * frame_pause (f32_of_int 30) <= 1000)%Z
  /\ (1000 < 30 * (frame_pause (f32_of_int 30) + 1))%Z
  /\ pauses (display_ascii_video ["a"; "b"] true (f32_of_int 30)
               {| screen := ""; pauses := [] |})
     = (pauses {| screen := ""; pauses := [] |} ++ replicate (length ["a"; "b"]) (1000 / 30)%Z)%list.
Proof.
  apply (playback_pause 30 ["a"; "b"] true {| screen := ""; pauses := [] |}). lia.
Defined.

(** X13. From the metadata of the video [main] takes the height of the text
    frames as 40 % of the height that keeps the proportions at width 480,
    both steps rounded down: with q = 480 * frame_height / frame_width it is
    2 * q / 5, as long as the product 480 * frame_height fits an [int] and
    q is below 65536.  So the text is never taller than
    0.4 * 480 * height / width, and it has no rows at all when the video is
    more than 160 times wider than high.  A frame height above 4473924
    makes the product overflow, and a frame width of 0 makes [main] divide
    by zero. *)
Theorem custom_height_value (frame_width frame_height : Z) :
  (0 < frame_width)%Z -> (0 <= frame_height)%Z ->
  (custom_width * frame_height <= INT_MAX)%Z ->
  (custom_width * frame_height / frame_width < 65536)%Z ->
  custom_height frame_width frame_height
  = Ok (2 * (custom_width * frame_height / frame_width) / 5)%Z
  /\ (5 * (2 * (custom_width * frame_height / frame_width) / 5) * frame_width
      <= 2 * custom_width * frame_height)%Z
  /\ ((2 * (custom_width * frame_height / frame_width) / 5 = 0)%Z
      <-> (custom_width * frame_height < 3 * frame_width)%Z)
  /\ custom_height 0 frame_height = DivisionByZero
  /\ (forall width height, (4473924 < height)%Z -> custom_height width height = OutOfRange)
  /\ custom_height 40000 4473925 = OutOfRange.
Proof.
  intros Hw Hh Hmax Hq. unfold custom_width in *.
  set (q := (480 * frame_height / frame_width)%Z) in *.
  assert (Hq0 : (0 <= q)%Z) by (apply Z.div_pos; lia).
  pose proof (Z.mul_div_le (480 * frame_height) frame_width Hw) as Hqle. fold q in Hqle.
  pose proof (Z.mul_succ_div_gt (480 * frame_height) frame_width Hw) as Hqgt. fold q in Hqgt.
  pose proof (Z.mul_div_le (2 * q) 5 ltac:(lia)) as Hcle.
  pose proof (Z.mul_succ_div_gt (2 * q) 5 ltac:(lia)) as Hcgt.
  assert (Hin : ((INT_MIN <=? 480 * frame_height) && (480 * frame_height <=? INT_MAX))%Z
                = true).
  { apply andb_true_iff. unfold INT_MIN, INT_MAX in *. split; [apply Z.leb_le|apply Z.leb_le]; lia. }
  split; [|split; [|split; [|split; [|split]]]].
  - unfold custom_height, custom_width. cbv zeta. rewrite Hin. cbn [negb].
    destruct (Z.eqb_spec frame_width 0) as [He|_]; [lia|].
    rewrite Z.quot_div_nonneg by lia. fold q. f_equal. apply Z.eqb_eq.
    apply (Z_forall_from_spec
             (fun q => (static_cast_int (double_of_int q * 0x1.999999999999ap-2)%float
                        =? 2 * q / 5)%Z) (Z.to_nat 65536) 0);
      [vm_compute; reflexivity|rewrite Z2Nat.id by lia; lia].
  - nia.
  - split; intros H.
    + assert (q < 3)%Z by lia. nia.
    + assert (q < 3)%Z by nia. apply Z.div_small. lia.
  - unfold custom_height, custom_width. cbv zeta. rewrite Hin. reflexivity.
  - intros width height Hheight. unfold custom_height, custom_width. cbv zeta.
    destruct (Z.leb_spec (480 * height) INT_MAX) as [Hle|_].
    + unfold INT_MAX in Hle. lia.
    + now rewrite andb_false_r.
  - reflexivity.
Qed.

Lemma custom_height_value_witness :
  custom_height 1920 1080 = Ok (2 * (custom_width * 1080 / 1920) / 5)%Z
  /\ (5 * (2 * (custom_width * 1080 / 1920) / 5) * 1920 <= 2 * custom_width * 1080)%Z
  /\ ((2 * (custom_width * 1080 / 1920) / 5 = 0)%Z <-> (custom_width * 1080 < 3 * 1920)%Z)
  /\ custom_height 0 1080 = DivisionByZero
  /\ (forall width height, (4473924 < height)%Z -> custom_height width height = OutOfRange)
  /\ custom_height 40000 4473925 = OutOfRange.
Proof.
  apply (custom_height_value 1920 1080); [lia|lia|discriminate|reflexivity].
Defined.
